(** * minijail0: the command-line front end of minijail

    A shallow embedding of [minijail0.c]: the option handlers ([set_user],
    [set_group], [use_caps], [skip_securebits], [add_binding], [add_rlimit],
    [add_mount]), the id-map helpers ([build_idmap], [has_cap_setgid],
    [set_ugid_mapping]), [parse_args] and [main].

    The jail itself ([struct minijail] and the [minijail_*] functions of
    libminijail) is not part of this file: every call on it is recorded in a
    trace of events, and the value it returns comes from an oracle of the
    environment.  The C library functions the front end relies on
    ([strtod], [strtoull], [strtoul], [atoi], [strtok], [snprintf]) are
    modelled for the C locale. *)

From Stdlib Require Import ZArith List String Ascii Bool Lia.
Import ListNotations.

Local Open Scope string_scope.
Local Open Scope Z_scope.

Set Implicit Arguments.

(** ** Machine integers *)

Module Int.

(** [int]: 32 bits, two's complement. *)
Definition INT_MIN : Z := - 2 ^ 31.
Definition INT_MAX : Z := 2 ^ 31 - 1.
Definition in_int (z : Z) : bool := (INT_MIN <=? z) && (z <=? INT_MAX).

(** Conversion of an integer to [int] (wraps around). *)
Definition to_int (z : Z) : Z := (z + 2 ^ 31) mod 2 ^ 32 - 2 ^ 31.

(** Conversion to [uid_t], [gid_t], [id_t]: unsigned, 32 bits. *)
Definition to_id (z : Z) : Z := z mod 2 ^ 32.

Definition ULLONG_MAX : Z := 2 ^ 64 - 1.
Definition to_u64 (z : Z) : Z := z mod 2 ^ 64.

End Int.

(** ** The C library, C locale *)

Module Libc.

Definition nl : string := String (ascii_of_nat 10) EmptyString.

Definition code (c : ascii) : Z := Z.of_nat (nat_of_ascii c).

(** [isspace]: space, and the controls from tab to carriage return. *)
Definition isspace (c : ascii) : bool :=
  (code c =? 32) || ((9 <=? code c) && (code c <=? 13)).

Definition tolower (c : ascii) : ascii :=
  if (65 <=? code c) && (code c <=? 90)
  then ascii_of_nat (nat_of_ascii c + 32) else c.

(** Value of a character read as a digit, letters counting from ten. *)
Definition digit_val (c : ascii) : option Z :=
  let n := code c in
  if (48 <=? n) && (n <=? 57) then Some (n - 48)
  else if (97 <=? n) && (n <=? 122) then Some (n - 87)
  else if (65 <=? n) && (n <=? 90) then Some (n - 55)
  else None.

Definition digit_in (base : Z) (c : ascii) : option Z :=
  match digit_val c with
  | Some d => if d <? base then Some d else None
  | None => None
  end.

Fixpoint skip_space (s : string) : string :=
  match s with
  | String c s' => if isspace c then skip_space s' else s
  | EmptyString => s
  end.

Definition read_sign (s : string) : bool * string :=
  match s with
  | String "-" s' => (true, s')
  | String "+" s' => (false, s')
  | _ => (false, s)
  end.

(** The longest run of digits of [base] at the head of [s]: the value
    accumulated on [acc], the number of digits added to [n], and what
    follows the run. *)
Fixpoint read_digits (base : Z) (s : string) (acc n : Z) : Z * Z * string :=
  match s with
  | String c s' =>
      match digit_in base c with
      | Some d => read_digits base s' (acc * base + d) (n + 1)
      | None => (acc, n, s)
      end
  | EmptyString => (acc, n, s)
  end.

(** A leading [0x] or [0X]: what follows it. *)
Definition strip_0x (s : string) : option string :=
  match s with
  | String "0" (String x s') =>
      if Ascii.eqb (tolower x) "x" then Some s' else None
  | _ => None
  end.

(** The subject sequence of [strtol] and its unsigned variants: optional
    white space, an optional sign, an optional [0x] when the base is 16,
    digits.  [None] when nothing converts, and then the end pointer is
    the start of the string; a [0x] that no hexadecimal digit follows
    converts its [0] and stops at the [x]. *)
Definition strto_mag (base : Z) (s : string) : option (bool * Z) * string :=
  let '(neg, s2) := read_sign (skip_space s) in
  let prefix := if base =? 16 then strip_0x s2 else None in
  let body := match prefix with Some s3 => s3 | None => s2 end in
  let '(v, n, rest) := read_digits base body 0 0 in
  if 0 <? n then (Some (neg, v), rest)
  else match prefix, s2 with
       | Some _, String _ after0 => (Some (neg, 0), after0)
       | _, _ => (None, s)
       end.

(** [strtoull(s, &end, base)]: the value and the string at [end].  The
    result saturates at [ULLONG_MAX]; a minus sign negates modulo 2^64. *)
Definition strtoull (s : string) (base : Z) : Z * string :=
  match strto_mag base s with
  | (None, e) => (0, e)
  | (Some (neg, v), e) =>
      (if Int.ULLONG_MAX <? v then Int.ULLONG_MAX
       else if neg then Int.to_u64 (- v) else v, e)
  end.

(** [strtoul], for an [unsigned long] of [bits] bits. *)
Definition strtoul (bits : Z) (s : string) (base : Z) : Z * string :=
  match strto_mag base s with
  | (None, e) => (0, e)
  | (Some (neg, v), e) =>
      (if 2 ^ bits - 1 <? v then 2 ^ bits - 1
       else if neg then (- v) mod 2 ^ bits else v, e)
  end.

(** [strtol], for a [long] of [bits] bits: saturates at both ends. *)
Definition strtol (bits : Z) (s : string) (base : Z) : Z * string :=
  match strto_mag base s with
  | (None, e) => (0, e)
  | (Some (neg, v), e) =>
      (if neg then (if 2 ^ (bits - 1) <? v then - 2 ^ (bits - 1) else - v)
       else (if 2 ^ (bits - 1) - 1 <? v then 2 ^ (bits - 1) - 1 else v), e)
  end.

(** [atoi(s)] is [(int) strtol(s, NULL, 10)]. *)
Definition atoi (bits : Z) (s : string) : Z :=
  Int.to_int (fst (strtol bits s 10)).

(** *** [strtok] *)

(** The fields of [s] between occurrences of [d], empty ones included. *)
Fixpoint fields (d : ascii) (s : string) : list string :=
  match s with
  | EmptyString => [EmptyString]
  | String c s' =>
      if Ascii.eqb c d then EmptyString :: fields d s'
      else match fields d s' with
           | f :: fs => String c f :: fs
           | [] => [String c EmptyString]
           end
  end.

Definition nonempty (s : string) : bool :=
  match s with EmptyString => false | _ => true end.

(** What [strtok(s, d)] followed by calls [strtok(NULL, d)] return until
    the first [NULL]: the non-empty fields. *)
Definition strtok_all (d : ascii) (s : string) : list string :=
  filter nonempty (fields d s).

(** What the buffer [s] reads as once [strtok] has cut it after its first
    token: the leading delimiters and that token. *)
Fixpoint after_strtok (d : ascii) (s : string) (in_token : bool) : string :=
  match s with
  | EmptyString => EmptyString
  | String c s' =>
      if Ascii.eqb c d
      then (if in_token then EmptyString else String c (after_strtok d s' false))
      else String c (after_strtok d s' true)
  end.

(** *** [printf] conversions *)

Definition digit_char (d : Z) : ascii := ascii_of_nat (Z.to_nat (48 + d)).

(** The decimal digits of [n], written in front of [acc]; [fuel] bounds
    their number. *)
Fixpoint digits (fuel : nat) (n : Z) (acc : string) : string :=
  match fuel with
  | O => acc
  | S fuel' =>
      let acc' := String (digit_char (n mod 10)) acc in
      if n <? 10 then acc' else digits fuel' (n / 10) acc'
  end.

(** [%d], for an [int]: a sign when negative, and at most ten digits. *)
Definition fmt_d (z : Z) : string :=
  if z <? 0 then String "-" (digits 10 (- z) EmptyString)
  else digits 10 z EmptyString.

(** [%s]; a null pointer prints as [(null)]. *)
Definition fmt_s (s : option string) : string :=
  match s with Some s => s | None => "(null)" end.

Definition strlen (s : string) : Z := Z.of_nat (String.length s).

(** *** [strtod] *)

(** A [double], IEEE 754 binary64: [DFinite neg m e] stands for
    (-1)^neg * m * 2^e. *)
Inductive double :=
| DFinite (neg : bool) (m e : Z)
| DInfinity (neg : bool)
| DNaN.

(** [q * 2^d <= p], for an exponent [d] of either sign. *)
Definition scaled_le (q d p : Z) : bool :=
  if 0 <=? d then q * 2 ^ d <=? p else q <=? p * 2 ^ (- d).

(** The binary64 nearest to [p / q], ties to even, for [0 <= p] and
    [0 < q]: 53 bits of precision, least exponent -1074, overflow to
    infinity. *)
Definition round_b64 (neg : bool) (p q : Z) : double :=
  if p =? 0 then DFinite neg 0 0
  else
    let d := Z.log2 p - Z.log2 q in
    let ex := if scaled_le q d p then d else d - 1 in
    let sh := Z.max (ex - 52) (- 1074) in
    let num := if 0 <=? sh then p else p * 2 ^ (- sh) in
    let den := if 0 <=? sh then q * 2 ^ sh else q in
    let m0 := num / den in
    let r := num mod den in
    let m := if (den <? 2 * r) || ((den =? 2 * r) && Z.odd m0)
             then m0 + 1 else m0 in
    if (971 <? sh) || ((sh =? 971) && (m =? 2 ^ 53))
    then DInfinity neg else DFinite neg m sh.

(** [m * b^e] as a [double]. *)
Definition scaled (neg : bool) (m b e : Z) : double :=
  if 0 <=? e then round_b64 neg (m * b ^ e) 1
  else round_b64 neg m (b ^ (- e)).

(** Digits with an optional point among them, one digit at least: the
    digits read as one integer, the number of digits after the point, and
    what follows. *)
Definition read_mantissa (base : Z) (s : string) : option (Z * Z * string) :=
  let '(vi, ni, r1) := read_digits base s 0 0 in
  match r1 with
  | String "." r1' =>
      let '(v, nf, r2) := read_digits base r1' vi 0 in
      if 0 <? ni + nf then Some (v, nf, r2) else None
  | _ => if 0 <? ni then Some (vi, 0, r1) else None
  end.

(** An exponent part: the marker, an optional sign, one decimal digit at
    least.  Anything less is left unread. *)
Definition read_exponent (marker : ascii) (s : string) : Z * string :=
  match s with
  | String c s' =>
      if Ascii.eqb (tolower c) marker then
        let '(neg, s2) := read_sign s' in
        let '(v, n, rest) := read_digits 10 s2 0 0 in
        if 0 <? n then (if neg then - v else v, rest) else (0, s)
      else (0, s)
  | EmptyString => (0, s)
  end.

Definition read_decimal (neg : bool) (s : string) : option (double * string) :=
  match read_mantissa 10 s with
  | Some (m, nf, r) =>
      let '(e, r') := read_exponent "e" r in
      Some (scaled neg m 10 (e - nf), r')
  | None => None
  end.

Definition read_hex (neg : bool) (s : string) : option (double * string) :=
  match strip_0x s with
  | Some s' =>
      match read_mantissa 16 s' with
      | Some (m, nf, r) =>
          let '(e, r') := read_exponent "p" r in
          Some (scaled neg m 2 (e - 4 * nf), r')
      | None => None
      end
  | None => None
  end.

(** [s] without the word [w] at its head, letter case ignored. *)
Fixpoint strip_word (w s : string) : option string :=
  match w, s with
  | EmptyString, _ => Some s
  | String a w', String c s' =>
      if Ascii.eqb (tolower c) a then strip_word w' s' else None
  | String _ _, EmptyString => None
  end.

Definition is_nchar (c : ascii) : bool :=
  match digit_val c with Some _ => true | None => Ascii.eqb c "_" end.

Fixpoint skip_nchars (s : string) : string :=
  match s with
  | String c s' => if is_nchar c then skip_nchars s' else s
  | EmptyString => s
  end.

(** After [nan]: an optional parenthesised sequence of letters, digits
    and underscores. *)
Definition read_nan_tail (r : string) : string :=
  match r with
  | String "(" r' =>
      match skip_nchars r' with
      | String ")" r'' => r''
      | _ => r
      end
  | _ => r
  end.

Definition read_special (neg : bool) (s : string) : option (double * string) :=
  match strip_word "infinity" s with
  | Some r => Some (DInfinity neg, r)
  | None =>
      match strip_word "inf" s with
      | Some r => Some (DInfinity neg, r)
      | None =>
          match strip_word "nan" s with
          | Some r => Some (DNaN, read_nan_tail r)
          | None => None
          end
      end
  end.

(** [strtod(s, &end)]: the value and the string at [end].  White space,
    an optional sign, then a hexadecimal or a decimal floating constant,
    an infinity or a NaN; when nothing converts the value is zero and
    [end] is [s]. *)
Definition strtod (s : string) : double * string :=
  let '(neg, s2) := read_sign (skip_space s) in
  match read_hex neg s2 with
  | Some x => x
  | None =>
      match read_decimal neg s2 with
      | Some x => x
      | None =>
          match read_special neg s2 with
          | Some x => x
          | None => (DFinite false 0 0, s)
          end
      end
  end.

(** Conversion of a [double] to [int]: the fraction is dropped; the
    behaviour is undefined ([None]) when the integral part does not fit,
    and for infinities and NaNs. *)
Definition double_to_int (d : double) : option Z :=
  match d with
  | DFinite neg m e =>
      let t := if 0 <=? e then m * 2 ^ e else m / 2 ^ (- e) in
      let v := if neg then - t else t in
      if Int.in_int v then Some v else None
  | _ => None
  end.

End Libc.

(** ** The jail and the system around the front end *)

(** [ElfType], declared in [elfparse.h]. *)
Inductive ElfType := ELFERROR | ELFSTATIC | ELFDYNAMIC.

Definition ElfType_eqb (a b : ElfType) : bool :=
  match a, b with
  | ELFERROR, ELFERROR | ELFSTATIC, ELFSTATIC | ELFDYNAMIC, ELFDYNAMIC => true
  | _, _ => false
  end.

(** The calls of [libminijail.h] the front end makes on its jail [j], with
    their arguments ([j] left out). *)
Inductive jcall :=
| minijail_change_uid (uid : Z)
| minijail_change_gid (gid : Z)
| minijail_change_user (user : string)
| minijail_change_group (group : string)
| minijail_skip_setting_securebits (mask : Z)
| minijail_use_caps (capmask : Z)
| minijail_bind (src dest : string) (writeable : Z)
| minijail_rlimit (type cur max : Z)
| minijail_mount_with_data (src dest type : string) (flags : Z)
                           (data : option string)
| minijail_namespace_user
| minijail_namespace_pids
| minijail_uidmap (map : string)
| minijail_gidmap (map : string)
| minijail_namespace_user_disable_setgroups
| minijail_no_new_privs
| minijail_use_seccomp
| minijail_use_seccomp_filter
| minijail_namespace_ipc
| minijail_log_seccomp_filter_failures
| minijail_enter_chroot (dir : string)
| minijail_skip_remount_private
| minijail_enter_pivot_root (dir : string)
| minijail_namespace_vfs
| minijail_write_pid_file (path : string)
| minijail_mount_tmp_size (size : Z)
| minijail_namespace_enter_vfs (path : string)
| minijail_remount_proc_readonly
| minijail_inherit_usergroups
| minijail_keep_supplementary_gids
| minijail_namespace_cgroups
| minijail_namespace_enter_net (path : string)
| minijail_namespace_net
| minijail_run_as_init
| minijail_use_alt_syscall (table : string)
| minijail_new_session_keyring
| minijail_set_seccomp_filter_tsync
| minijail_mount_dev
| minijail_set_ambient_caps
| minijail_namespace_uts
| minijail_namespace_set_hostname (name : string)
| minijail_preserve_fd (parent_fd child_fd : Z)
| minijail_forward_signals
| minijail_parse_seccomp_filters (path : option string)
| minijail_get_original_path (path : string)
| minijail_run_no_preload (filename : string) (argv : list string)
| minijail_run (filename : string) (argv : list string)
| minijail_wait.

(** What a run of the front end does that can be observed from outside. *)
Inductive event :=
| Call (c : jcall)
| Lookup_user (name : string)
| Lookup_group (name : string)
| Init_logging_stderr
| Print_usage
| Print_seccomp_filter_usage
| Log_info (msg : string).

(** The system the process runs in.  [jail_ret] gives what a call on the
    jail returns, after the events so far; the rest are the answers of the
    operating system and of the helpers of [system.h], [util.h] and
    [elfparse.h]. *)
Record system := {
  getuid : Z;
  getgid : Z;
  (** [lookup_user]: the uid and gid of a user name, [None] when it fails. *)
  lookup_user : string -> option (Z * Z);
  lookup_group : string -> option Z;
  jail_ret : list event -> jcall -> Z;
  original_path : list event -> string -> string;
  (** [parse_size]: the size, [None] when it returns non-zero. *)
  parse_size : string -> option Z;
  cap_is_supported_setgid : bool;
  cap_get_proc_ok : bool;
  (** [cap_get_flag] on [CAP_SETGID], [CAP_EFFECTIVE]: whether the value is
      [CAP_SET], [None] when the call fails. *)
  cap_get_flag_setgid : option bool;
  cap_free_ok : bool;
  (** [access(path, X_OK) == 0]. *)
  access_x_ok : string -> bool;
  get_elf_linkage : string -> ElfType;
  dlopen_preload_ok : bool;
  dlerror : string;
  (** [setpgid(0, 0)]: [None] on success, else [errno]. *)
  setpgid_errno : option Z;
  (** Width of [long]. *)
  long_bits : Z
}.

Definition EPERM : Z := 1.
Definition STDERR_FILENO : Z := 2.

(** ** Computations: a trace of events, and three ways to end

    [Ret] is a normal return; [Exit] is [exit(status)] with the message last
    written to [stderr]; [Undefined] is an execution whose behaviour the C
    standard leaves undefined. *)

Inductive outcome (A : Type) :=
| Ret (a : A)
| Exit (status : Z) (err : string)
| Undefined.

Arguments Exit {A} status err.
Arguments Undefined {A}.

Definition M (A : Type) : Type := list event -> outcome A * list event.

Definition ret {A} (a : A) : M A := fun tr => (Ret a, tr).

Definition bind {A B} (m : M A) (k : A -> M B) : M B :=
  fun tr =>
    match m tr with
    | (Ret a, tr') => k a tr'
    | (Exit st e, tr') => (Exit st e, tr')
    | (Undefined, tr') => (Undefined, tr')
    end.

Notation "x <- m ;; k" := (bind m (fun x => k))
  (at level 61, m at next level, right associativity).
Notation "m ;;; k" := (bind m (fun _ => k))
  (at level 61, right associativity).

Definition emit (e : event) : M unit := fun tr => (Ret tt, (tr ++ [e])%list).

(** [fprintf(stderr, msg); exit(status)]. *)
Definition die {A} (status : Z) (msg : string) : M A :=
  fun tr => (Exit status msg, tr).

Definition undefined {A} : M A := fun tr => (Undefined, tr).

(** ** [minijail0.c] *)

Module Minijail0.

Import Libc.

Definition IDMAP_LEN : Z := 32.

(** The local variables of [parse_args] that outlive one option, and the
    two it writes through pointers, [exit_immediately] and [elftype]. *)
Record locals := mk_locals {
  use_seccomp_filter : bool;
  forward : bool;
  binding : bool;
  chroot : bool;
  pivot_root : bool;
  mount_ns : bool;
  skip_remount : bool;
  inherit_suppl_gids : bool;
  keep_suppl_gids : bool;
  caps : bool;
  ambient_caps : bool;
  seccomp : Z;
  uid : Z;
  gid : Z;
  uidmap : option string;
  gidmap : option string;
  set_uidmap : bool;
  set_gidmap : bool;
  filter_path : option string;
  log_to_stderr : bool;
  exit_immediately : bool;
  elftype : ElfType;
}.

Definition with_use_seccomp_filter (v : bool) (l : locals) : locals :=
  mk_locals v (forward l) (binding l) (chroot l) (pivot_root l)
    (mount_ns l) (skip_remount l) (inherit_suppl_gids l) (keep_suppl_gids
    l) (caps l) (ambient_caps l) (seccomp l) (uid l) (gid l) (uidmap l)
    (gidmap l) (set_uidmap l) (set_gidmap l) (filter_path l)
    (log_to_stderr l) (exit_immediately l) (elftype l).

Definition with_forward (v : bool) (l : locals) : locals :=
  mk_locals (use_seccomp_filter l) v (binding l) (chroot l) (pivot_root
    l) (mount_ns l) (skip_remount l) (inherit_suppl_gids l)
    (keep_suppl_gids l) (caps l) (ambient_caps l) (seccomp l) (uid l) (gid
    l) (uidmap l) (gidmap l) (set_uidmap l) (set_gidmap l) (filter_path l)
    (log_to_stderr l) (exit_immediately l) (elftype l).

Definition with_binding (v : bool) (l : locals) : locals :=
  mk_locals (use_seccomp_filter l) (forward l) v (chroot l) (pivot_root
    l) (mount_ns l) (skip_remount l) (inherit_suppl_gids l)
    (keep_suppl_gids l) (caps l) (ambient_caps l) (seccomp l) (uid l) (gid
    l) (uidmap l) (gidmap l) (set_uidmap l) (set_gidmap l) (filter_path l)
    (log_to_stderr l) (exit_immediately l) (elftype l).

Definition with_chroot (v : bool) (l : locals) : locals :=
  mk_locals (use_seccomp_filter l) (forward l) (binding l) v (pivot_root
    l) (mount_ns l) (skip_remount l) (inherit_suppl_gids l)
    (keep_suppl_gids l) (caps l) (ambient_caps l) (seccomp l) (uid l) (gid
    l) (uidmap l) (gidmap l) (set_uidmap l) (set_gidmap l) (filter_path l)
    (log_to_stderr l) (exit_immediately l) (elftype l).

Definition with_pivot_root (v : bool) (l : locals) : locals :=
  mk_locals (use_seccomp_filter l) (forward l) (binding l) (chroot l) v
    (mount_ns l) (skip_remount l) (inherit_suppl_gids l) (keep_suppl_gids
    l) (caps l) (ambient_caps l) (seccomp l) (uid l) (gid l) (uidmap l)
    (gidmap l) (set_uidmap l) (set_gidmap l) (filter_path l)
    (log_to_stderr l) (exit_immediately l) (elftype l).

Definition with_mount_ns (v : bool) (l : locals) : locals :=
  mk_locals (use_seccomp_filter l) (forward l) (binding l) (chroot l)
    (pivot_root l) v (skip_remount l) (inherit_suppl_gids l)
    (keep_suppl_gids l) (caps l) (ambient_caps l) (seccomp l) (uid l) (gid
    l) (uidmap l) (gidmap l) (set_uidmap l) (set_gidmap l) (filter_path l)
    (log_to_stderr l) (exit_immediately l) (elftype l).

Definition with_skip_remount (v : bool) (l : locals) : locals :=
  mk_locals (use_seccomp_filter l) (forward l) (binding l) (chroot l)
    (pivot_root l) (mount_ns l) v (inherit_suppl_gids l) (keep_suppl_gids
    l) (caps l) (ambient_caps l) (seccomp l) (uid l) (gid l) (uidmap l)
    (gidmap l) (set_uidmap l) (set_gidmap l) (filter_path l)
    (log_to_stderr l) (exit_immediately l) (elftype l).

Definition with_inherit_suppl_gids (v : bool) (l : locals) : locals :=
  mk_locals (use_seccomp_filter l) (forward l) (binding l) (chroot l)
    (pivot_root l) (mount_ns l) (skip_remount l) v (keep_suppl_gids l)
    (caps l) (ambient_caps l) (seccomp l) (uid l) (gid l) (uidmap l)
    (gidmap l) (set_uidmap l) (set_gidmap l) (filter_path l)
    (log_to_stderr l) (exit_immediately l) (elftype l).

Definition with_keep_suppl_gids (v : bool) (l : locals) : locals :=
  mk_locals (use_seccomp_filter l) (forward l) (binding l) (chroot l)
    (pivot_root l) (mount_ns l) (skip_remount l) (inherit_suppl_gids l) v
    (caps l) (ambient_caps l) (seccomp l) (uid l) (gid l) (uidmap l)
    (gidmap l) (set_uidmap l) (set_gidmap l) (filter_path l)
    (log_to_stderr l) (exit_immediately l) (elftype l).

Definition with_caps (v : bool) (l : locals) : locals :=
  mk_locals (use_seccomp_filter l) (forward l) (binding l) (chroot l)
    (pivot_root l) (mount_ns l) (skip_remount l) (inherit_suppl_gids l)
    (keep_suppl_gids l) v (ambient_caps l) (seccomp l) (uid l) (gid l)
    (uidmap l) (gidmap l) (set_uidmap l) (set_gidmap l) (filter_path l)
    (log_to_stderr l) (exit_immediately l) (elftype l).

Definition with_ambient_caps (v : bool) (l : locals) : locals :=
  mk_locals (use_seccomp_filter l) (forward l) (binding l) (chroot l)
    (pivot_root l) (mount_ns l) (skip_remount l) (inherit_suppl_gids l)
    (keep_suppl_gids l) (caps l) v (seccomp l) (uid l) (gid l) (uidmap l)
    (gidmap l) (set_uidmap l) (set_gidmap l) (filter_path l)
    (log_to_stderr l) (exit_immediately l) (elftype l).

Definition with_seccomp (v : Z) (l : locals) : locals :=
  mk_locals (use_seccomp_filter l) (forward l) (binding l) (chroot l)
    (pivot_root l) (mount_ns l) (skip_remount l) (inherit_suppl_gids l)
    (keep_suppl_gids l) (caps l) (ambient_caps l) v (uid l) (gid l)
    (uidmap l) (gidmap l) (set_uidmap l) (set_gidmap l) (filter_path l)
    (log_to_stderr l) (exit_immediately l) (elftype l).

Definition with_uid (v : Z) (l : locals) : locals :=
  mk_locals (use_seccomp_filter l) (forward l) (binding l) (chroot l)
    (pivot_root l) (mount_ns l) (skip_remount l) (inherit_suppl_gids l)
    (keep_suppl_gids l) (caps l) (ambient_caps l) (seccomp l) v (gid l)
    (uidmap l) (gidmap l) (set_uidmap l) (set_gidmap l) (filter_path l)
    (log_to_stderr l) (exit_immediately l) (elftype l).

Definition with_gid (v : Z) (l : locals) : locals :=
  mk_locals (use_seccomp_filter l) (forward l) (binding l) (chroot l)
    (pivot_root l) (mount_ns l) (skip_remount l) (inherit_suppl_gids l)
    (keep_suppl_gids l) (caps l) (ambient_caps l) (seccomp l) (uid l) v
    (uidmap l) (gidmap l) (set_uidmap l) (set_gidmap l) (filter_path l)
    (log_to_stderr l) (exit_immediately l) (elftype l).

Definition with_uidmap (v : option string) (l : locals) : locals :=
  mk_locals (use_seccomp_filter l) (forward l) (binding l) (chroot l)
    (pivot_root l) (mount_ns l) (skip_remount l) (inherit_suppl_gids l)
    (keep_suppl_gids l) (caps l) (ambient_caps l) (seccomp l) (uid l) (gid
    l) v (gidmap l) (set_uidmap l) (set_gidmap l) (filter_path l)
    (log_to_stderr l) (exit_immediately l) (elftype l).

Definition with_gidmap (v : option string) (l : locals) : locals :=
  mk_locals (use_seccomp_filter l) (forward l) (binding l) (chroot l)
    (pivot_root l) (mount_ns l) (skip_remount l) (inherit_suppl_gids l)
    (keep_suppl_gids l) (caps l) (ambient_caps l) (seccomp l) (uid l) (gid
    l) (uidmap l) v (set_uidmap l) (set_gidmap l) (filter_path l)
    (log_to_stderr l) (exit_immediately l) (elftype l).

Definition with_set_uidmap (v : bool) (l : locals) : locals :=
  mk_locals (use_seccomp_filter l) (forward l) (binding l) (chroot l)
    (pivot_root l) (mount_ns l) (skip_remount l) (inherit_suppl_gids l)
    (keep_suppl_gids l) (caps l) (ambient_caps l) (seccomp l) (uid l) (gid
    l) (uidmap l) (gidmap l) v (set_gidmap l) (filter_path l)
    (log_to_stderr l) (exit_immediately l) (elftype l).

Definition with_set_gidmap (v : bool) (l : locals) : locals :=
  mk_locals (use_seccomp_filter l) (forward l) (binding l) (chroot l)
    (pivot_root l) (mount_ns l) (skip_remount l) (inherit_suppl_gids l)
    (keep_suppl_gids l) (caps l) (ambient_caps l) (seccomp l) (uid l) (gid
    l) (uidmap l) (gidmap l) (set_uidmap l) v (filter_path l)
    (log_to_stderr l) (exit_immediately l) (elftype l).

Definition with_filter_path (v : option string) (l : locals) : locals :=
  mk_locals (use_seccomp_filter l) (forward l) (binding l) (chroot l)
    (pivot_root l) (mount_ns l) (skip_remount l) (inherit_suppl_gids l)
    (keep_suppl_gids l) (caps l) (ambient_caps l) (seccomp l) (uid l) (gid
    l) (uidmap l) (gidmap l) (set_uidmap l) (set_gidmap l) v
    (log_to_stderr l) (exit_immediately l) (elftype l).

Definition with_log_to_stderr (v : bool) (l : locals) : locals :=
  mk_locals (use_seccomp_filter l) (forward l) (binding l) (chroot l)
    (pivot_root l) (mount_ns l) (skip_remount l) (inherit_suppl_gids l)
    (keep_suppl_gids l) (caps l) (ambient_caps l) (seccomp l) (uid l) (gid
    l) (uidmap l) (gidmap l) (set_uidmap l) (set_gidmap l) (filter_path l)
    v (exit_immediately l) (elftype l).

Definition with_exit_immediately (v : bool) (l : locals) : locals :=
  mk_locals (use_seccomp_filter l) (forward l) (binding l) (chroot l)
    (pivot_root l) (mount_ns l) (skip_remount l) (inherit_suppl_gids l)
    (keep_suppl_gids l) (caps l) (ambient_caps l) (seccomp l) (uid l) (gid
    l) (uidmap l) (gidmap l) (set_uidmap l) (set_gidmap l) (filter_path l)
    (log_to_stderr l) v (elftype l).

Definition with_elftype (v : ElfType) (l : locals) : locals :=
  mk_locals (use_seccomp_filter l) (forward l) (binding l) (chroot l)
    (pivot_root l) (mount_ns l) (skip_remount l) (inherit_suppl_gids l)
    (keep_suppl_gids l) (caps l) (ambient_caps l) (seccomp l) (uid l) (gid
    l) (uidmap l) (gidmap l) (set_uidmap l) (set_gidmap l) (filter_path l)
    (log_to_stderr l) (exit_immediately l) v.

Definition locals0 : locals :=
  {| use_seccomp_filter := false; forward := true; binding := false;
     chroot := false; pivot_root := false; mount_ns := false;
     skip_remount := false; inherit_suppl_gids := false;
     keep_suppl_gids := false; caps := false; ambient_caps := false;
     seccomp := -1; uid := 0; gid := 0; uidmap := None; gidmap := None;
     set_uidmap := false; set_gidmap := false; filter_path := None;
     log_to_stderr := false; exit_immediately := false;
     elftype := ELFERROR |}.

(** What [getopt_long] hands to the [switch] of [parse_args], one value
    per turn of the loop: the option, with [optarg] when the option takes
    an argument ([option string] for the options of [optstring] marked
    [::] and for [--uts], whose argument may be missing).  [Opt_h] is
    [-h] or [--help]; [Opt_d] is [-d] or [--mount-dev]; [Opt_unknown] is
    any other value, among them the [?] of an option that is not known or
    lacks its argument. *)
Inductive opt :=
| Opt_u (optarg : string)
| Opt_g (optarg : string)
| Opt_n
| Opt_s
| Opt_S (optarg : string)
| Opt_l
| Opt_L
| Opt_b (optarg : string)
| Opt_B (optarg : string)
| Opt_c (optarg : string)
| Opt_C (optarg : string)
| Opt_k (optarg : string)
| Opt_K
| Opt_P (optarg : string)
| Opt_f (optarg : string)
| Opt_t (optarg : option string)
| Opt_v
| Opt_V (optarg : string)
| Opt_r
| Opt_G
| Opt_y
| Opt_N
| Opt_p
| Opt_e (optarg : option string)
| Opt_i
| Opt_H
| Opt_I
| Opt_U
| Opt_m (optarg : option string)
| Opt_M (optarg : option string)
| Opt_a (optarg : string)
| Opt_R (optarg : string)
| Opt_T (optarg : string)
| Opt_w
| Opt_Y
| Opt_z
| Opt_d
| Opt_ambient
| Opt_uts (optarg : option string)
| Opt_logging (optarg : string)
| Opt_h
| Opt_unknown.

(** The messages of the checks that follow the option loop. *)
Definition MSG_AMBIENT : string :=
  "Can't set ambient capabilities (--ambient) without actually using capabilities (-c)." ++ nl.
Definition MSG_BIND : string :=
  "Bind mounts require a chroot, pivot_root, or  new mount namespace." ++ nl.
Definition MSG_REMOUNT : string :=
  "Can't skip marking mounts as MS_PRIVATE without mount namespaces." ++ nl.
Definition MSG_STATIC_CAPS : string :=
  "Can't run statically-linked binaries with capabilities (-c) without also setting ambient capabilities. Try passing --ambient." ++ nl.
Definition MSG_CHROOT_PIVOT : string :=
  "Could not set chroot because '-P' was specified." ++ nl.
Definition MSG_PIVOT_CHROOT : string :=
  "Could not set pivot_root because '-C' was specified." ++ nl.

Section Front_end.

Variable sys : system.

(** A call on the jail that returns nothing, or whose result is
    dropped. *)
Definition call (c : jcall) : M unit := emit (Call c).

(** A call on the jail whose result is looked at. *)
Definition call_int (c : jcall) : M Z :=
  fun tr => (Ret (jail_ret sys tr c), (tr ++ [Call c])%list).

Definition set_user (arg : string) (l : locals) : M locals :=
  let '(d, e) := strtod arg in
  match double_to_int d with
  | None => undefined
  | Some uid =>
      if negb (nonempty e) && nonempty arg then
        let l := with_uid (Int.to_id uid) l in
        call (minijail_change_uid (Int.to_id uid)) ;;;
        ret l
      else
        emit (Lookup_user arg) ;;;
        match lookup_user sys arg with
        | None => die 1 ("Bad user: '" ++ arg ++ "'" ++ nl)
        | Some (u, g) =>
            r <- call_int (minijail_change_user arg) ;;
            if negb (r =? 0)
            then die 1 ("Bad user: '" ++ arg ++ "'" ++ nl)
            else ret (with_gid g (with_uid u l))
        end
  end.

Definition set_group (arg : string) (l : locals) : M locals :=
  let '(d, e) := strtod arg in
  match double_to_int d with
  | None => undefined
  | Some gid =>
      if negb (nonempty e) && nonempty arg then
        let l := with_gid (Int.to_id gid) l in
        call (minijail_change_gid (Int.to_id gid)) ;;;
        ret l
      else
        emit (Lookup_group arg) ;;;
        match lookup_group sys arg with
        | None => die 1 ("Bad group: '" ++ arg ++ "'" ++ nl)
        | Some g =>
            r <- call_int (minijail_change_group arg) ;;
            if negb (r =? 0)
            then die 1 ("Bad group: '" ++ arg ++ "'" ++ nl)
            else ret (with_gid g l)
        end
  end.

Definition skip_securebits (arg : string) : M unit :=
  let '(securebits_skip_mask, e) := strtoull arg 16 in
  if nonempty e
  then die 1 ("Invalid securebit mask: '" ++ arg ++ "'" ++ nl)
  else call (minijail_skip_setting_securebits securebits_skip_mask).

Definition use_caps (arg : string) : M unit :=
  let '(caps, e) := strtoull arg 16 in
  if nonempty e
  then die 1 ("Invalid cap set: '" ++ arg ++ "'" ++ nl)
  else call (minijail_use_caps caps).

Definition add_binding (arg : string) : M unit :=
  let toks := strtok_all "," arg in
  let src := nth_error toks 0 in
  let dest := nth_error toks 1 in
  let flags := nth_error toks 2 in
  match src, dest with
  | Some src', Some dest' =>
      r <- call_int
             (minijail_bind src' dest'
                (match flags with
                 | Some f => atoi (long_bits sys) f
                 | None => 0
                 end)) ;;
      if negb (r =? 0) then die 1 ("minijail_bind failed." ++ nl)
      else ret tt
  | _, _ =>
      die 1 ("Bad binding: " ++ fmt_s src ++ " " ++ fmt_s dest ++ nl)
  end.

Definition add_rlimit (arg : string) : M unit :=
  let toks := strtok_all "," arg in
  match nth_error toks 0, nth_error toks 1, nth_error toks 2 with
  | Some type, Some cur, Some max =>
      r <- call_int
             (minijail_rlimit (atoi (long_bits sys) type)
                (atoi (long_bits sys) cur) (atoi (long_bits sys) max)) ;;
      if negb (r =? 0)
      then die 1 ("minijail_rlimit '" ++ type ++ "," ++ cur ++ "," ++ max
                    ++ "' failed." ++ nl)
      else ret tt
  | _, _, _ =>
      die 1 ("Bad rlimit '" ++ after_strtok "," arg false ++ "'." ++ nl)
  end.

Definition add_mount (arg : string) : M unit :=
  let toks := strtok_all "," arg in
  let src := nth_error toks 0 in
  let dest := nth_error toks 1 in
  let type := nth_error toks 2 in
  let flags := nth_error toks 3 in
  let data := nth_error toks 4 in
  match src, dest, type with
  | Some src', Some dest', Some type' =>
      r <- call_int
             (minijail_mount_with_data src' dest' type'
                (match flags with
                 | Some f => fst (strtoul (long_bits sys) f 16)
                 | None => 0
                 end)
                data) ;;
      if negb (r =? 0) then die 1 ("minijail_mount failed." ++ nl)
      else ret tt
  | _, _, _ =>
      die 1 ("Bad mount: " ++ fmt_s src ++ " " ++ fmt_s dest ++ " "
               ++ fmt_s type ++ nl)
  end.

(** [snprintf(idmap, IDMAP_LEN, "%d %d 1", id, lowerid)]: the two
    [id_t] are printed by [%d], as [int]. *)
Definition build_idmap (id lowerid : Z) : M string :=
  let idmap :=
    fmt_d (Int.to_int id) ++ " " ++ fmt_d (Int.to_int lowerid) ++ " 1" in
  let ret_ := strlen idmap in
  if (ret_ <? 0) || (IDMAP_LEN <=? ret_)
  then die 1 ("Could not build id map." ++ nl)
  else ret idmap.

(** The messages end with the text of [errno] ([%m]), left out here. *)
Definition has_cap_setgid : M bool :=
  if negb (cap_is_supported_setgid sys) then ret false
  else if negb (cap_get_proc_ok sys)
  then die 1 "Could not get process' capabilities: "
  else
    match cap_get_flag_setgid sys with
    | None => die 1 "Could not get the value of CAP_SETGID: "
    | Some cap_value =>
        if negb (cap_free_ok sys)
        then die 1 "Could not free capabilities: "
        else ret cap_value
    end.

Definition set_ugid_mapping (set_uidmap : bool) (uid : Z)
    (uidmap : option string) (set_gidmap : bool) (gid : Z)
    (gidmap : option string) : M unit :=
  (if set_uidmap then
     call minijail_namespace_user ;;;
     call minijail_namespace_pids ;;;
     uidmap <- match uidmap with
               | None => build_idmap uid (getuid sys)
               | Some m => ret m
               end ;;
     r <- call_int (minijail_uidmap uidmap) ;;
     if negb (0 =? r) then die 1 ("Could not set uid map." ++ nl)
     else ret tt
   else ret tt) ;;;
  (if set_gidmap then
     call minijail_namespace_user ;;;
     call minijail_namespace_pids ;;;
     gidmap <- match gidmap with
               | None => build_idmap gid (getgid sys)
               | Some m => ret m
               end ;;
     has <- has_cap_setgid ;;
     (if negb has then call minijail_namespace_user_disable_setgroups
      else ret tt) ;;;
     r <- call_int (minijail_gidmap gidmap) ;;
     if negb (0 =? r) then die 1 ("Could not set gid map." ++ nl)
     else ret tt
   else ret tt).

Definition path_max : Z := 4096.

(** One turn of the [while] loop of [parse_args]: the [switch]. *)
Definition parse_opt (o : opt) (l : locals) : M locals :=
  match o with
  | Opt_u optarg => set_user optarg l
  | Opt_g optarg => set_group optarg l
  | Opt_n => call minijail_no_new_privs ;;; ret l
  | Opt_s =>
      if negb (seccomp l =? -1) && negb (seccomp l =? 1)
      then die 1 ("Do not use -s & -S together." ++ nl)
      else
        let l := with_seccomp 1 l in
        call minijail_use_seccomp ;;; ret l
  | Opt_S optarg =>
      if negb (seccomp l =? -1) && negb (seccomp l =? 2)
      then die 1 ("Do not use -s & -S together." ++ nl)
      else
        let l := with_seccomp 2 l in
        call minijail_use_seccomp_filter ;;;
        if path_max <=? strlen optarg
        then die 1 ("Filter path is too long." ++ nl)
        else ret (with_use_seccomp_filter true
                    (with_filter_path (Some optarg) l))
  | Opt_l => call minijail_namespace_ipc ;;; ret l
  | Opt_L => call minijail_log_seccomp_filter_failures ;;; ret l
  | Opt_b optarg => add_binding optarg ;;; ret (with_binding true l)
  | Opt_B optarg => skip_securebits optarg ;;; ret l
  | Opt_c optarg =>
      let l := with_caps true l in
      use_caps optarg ;;; ret l
  | Opt_C optarg =>
      if pivot_root l then die 1 MSG_CHROOT_PIVOT
      else
        r <- call_int (minijail_enter_chroot optarg) ;;
        if negb (0 =? r) then die 1 ("Could not set chroot." ++ nl)
        else ret (with_chroot true l)
  | Opt_k optarg => add_mount optarg ;;; ret l
  | Opt_K =>
      call minijail_skip_remount_private ;;;
      ret (with_skip_remount true l)
  | Opt_P optarg =>
      if chroot l then die 1 MSG_PIVOT_CHROOT
      else
        r <- call_int (minijail_enter_pivot_root optarg) ;;
        if negb (0 =? r) then die 1 ("Could not set pivot_root." ++ nl)
        else
          call minijail_namespace_vfs ;;;
          ret (with_pivot_root true l)
  | Opt_f optarg =>
      r <- call_int (minijail_write_pid_file optarg) ;;
      if negb (0 =? r)
      then die 1 ("Could not prepare pid file path." ++ nl)
      else ret l
  | Opt_t optarg =>
      call minijail_namespace_vfs ;;;
      match optarg with
      | Some a =>
          match parse_size sys a with
          | None => die 1 ("Invalid /tmp tmpfs size." ++ nl)
          | Some size => call (minijail_mount_tmp_size size) ;;; ret l
          end
      | None =>
          call (minijail_mount_tmp_size (64 * 1024 * 1024)) ;;; ret l
      end
  | Opt_v => call minijail_namespace_vfs ;;; ret (with_mount_ns true l)
  | Opt_V optarg => call (minijail_namespace_enter_vfs optarg) ;;; ret l
  | Opt_r => call minijail_remount_proc_readonly ;;; ret l
  | Opt_G =>
      if keep_suppl_gids l
      then die 1 ("-y and -G are not compatible." ++ nl)
      else
        call minijail_inherit_usergroups ;;;
        ret (with_inherit_suppl_gids true l)
  | Opt_y =>
      if inherit_suppl_gids l
      then die 1 ("-y and -G are not compatible." ++ nl)
      else
        call minijail_keep_supplementary_gids ;;;
        ret (with_keep_suppl_gids true l)
  | Opt_N => call minijail_namespace_cgroups ;;; ret l
  | Opt_p => call minijail_namespace_pids ;;; ret l
  | Opt_e optarg =>
      match optarg with
      | Some a => call (minijail_namespace_enter_net a)
      | None => call minijail_namespace_net
      end ;;; ret l
  | Opt_i => ret (with_exit_immediately true l)
  | Opt_H => emit Print_seccomp_filter_usage ;;; die 1 ""
  | Opt_I =>
      call minijail_namespace_pids ;;;
      call minijail_run_as_init ;;; ret l
  | Opt_U =>
      call minijail_namespace_user ;;;
      call minijail_namespace_pids ;;; ret l
  | Opt_m optarg => ret (with_uidmap optarg (with_set_uidmap true l))
  | Opt_M optarg => ret (with_gidmap optarg (with_set_gidmap true l))
  | Opt_a optarg =>
      r <- call_int (minijail_use_alt_syscall optarg) ;;
      if negb (0 =? r)
      then die 1 ("Could not set alt-syscall table." ++ nl)
      else ret l
  | Opt_R optarg => add_rlimit optarg ;;; ret l
  | Opt_T optarg =>
      if String.eqb optarg "static" then ret (with_elftype ELFSTATIC l)
      else if String.eqb optarg "dynamic"
      then ret (with_elftype ELFDYNAMIC l)
      else die 1 ("ELF type must be 'static' or 'dynamic'." ++ nl)
  | Opt_w => call minijail_new_session_keyring ;;; ret l
  | Opt_Y => call minijail_set_seccomp_filter_tsync ;;; ret l
  | Opt_z => ret (with_forward false l)
  | Opt_d =>
      call minijail_namespace_vfs ;;;
      call minijail_mount_dev ;;; ret l
  | Opt_ambient =>
      let l := with_ambient_caps true l in
      call minijail_set_ambient_caps ;;; ret l
  | Opt_uts optarg =>
      call minijail_namespace_uts ;;;
      match optarg with
      | Some a => call (minijail_namespace_set_hostname a)
      | None => ret tt
      end ;;; ret l
  | Opt_logging optarg =>
      if String.eqb optarg "syslog" then ret (with_log_to_stderr false l)
      else if String.eqb optarg "stderr"
      then ret (with_log_to_stderr true l)
      else die 1 ("--logger must be 'syslog' or 'stderr'." ++ nl)
  | Opt_h => emit Print_usage ;;; die 0 ""
  | Opt_unknown => emit Print_usage ;;; die 1 ""
  end.

(** The [while] loop over the options. *)
Fixpoint parse_opts (opts : list opt) (l : locals) : M locals :=
  match opts with
  | [] => ret l
  | o :: opts' => l' <- parse_opt o l ;; parse_opts opts' l'
  end.

(** *** [parse_args] after the loop

    The rest of [parse_args] is a sequence of sections, each of which
    either exits or goes on; they are given here one by one, in the
    order of the source. *)

(** [--logging=stderr]. *)
Definition step_logging (l : locals) : M unit :=
  if log_to_stderr l then
    emit Init_logging_stderr ;;;
    r <- call_int (minijail_preserve_fd STDERR_FILENO STDERR_FILENO) ;;
    if negb (0 =? r) then die 1 ("Could not preserve stderr." ++ nl)
    else ret tt
  else ret tt.

(** Set up uid/gid mapping. *)
Definition step_idmaps (l : locals) : M unit :=
  if set_uidmap l || set_gidmap l
  then set_ugid_mapping (set_uidmap l) (uid l) (uidmap l)
                        (set_gidmap l) (gid l) (gidmap l)
  else ret tt.

(** Can only set ambient caps when using regular caps. *)
Definition step_ambient (l : locals) : M unit :=
  if ambient_caps l && negb (caps l) then die 1 MSG_AMBIENT else ret tt.

(** Set up signal handlers in minijail unless asked not to. *)
Definition step_forward (l : locals) : M unit :=
  if forward l then call minijail_forward_signals else ret tt.

(** Only allow bind mounts when entering a chroot, using pivot_root, or
    a new mount namespace. *)
Definition step_binding (l : locals) : M unit :=
  if binding l && negb (chroot l || pivot_root l || mount_ns l)
  then die 1 MSG_BIND else ret tt.

(** Skipping the remount of / as MS_PRIVATE only applies when entering
    a new mount namespace. *)
Definition step_remount (l : locals) : M unit :=
  if skip_remount l && negb (mount_ns l) then die 1 MSG_REMOUNT
  else ret tt.

(** The seccomp filters are parsed once all options are collected. *)
Definition step_seccomp_filters (l : locals) : M unit :=
  if use_seccomp_filter l
  then call (minijail_parse_seccomp_filters (filter_path l))
  else ret tt.

(** There should be at least one argument left: the executable name.
    [rest] is [argv] from [optind] on. *)
Definition step_program (rest : list string) : M string :=
  match rest with
  | [] => emit Print_usage ;;; die 1 ""
  | program :: _ => ret program
  end.

(** Without [-T], the linkage of the target is read from the file. *)
Definition step_elftype (program : string) (l : locals) : M locals :=
  if ElfType_eqb (elftype l) ELFERROR then
    fun tr =>
      let program_path := original_path sys tr program in
      (emit (Call (minijail_get_original_path program)) ;;;
       if negb (access_x_ok sys program_path)
       then die 1 ("Target program '" ++ program
                     ++ "' is not accessible." ++ nl)
       else ret (with_elftype (get_elf_linkage sys program_path) l)) tr
  else ret l.

(** Setting capabilities needs a dynamically-linked binary or ambient
    capabilities. *)
Definition step_static_caps (l : locals) : M unit :=
  if caps l && ElfType_eqb (elftype l) ELFSTATIC && negb (ambient_caps l)
  then die 1 MSG_STATIC_CAPS else ret tt.

(** The runs of [parse_args] up to the end of each section. *)
Definition run_to_logging (opts : list opt) : M locals :=
  l <- parse_opts opts locals0 ;; step_logging l ;;; ret l.

Definition run_to_idmaps (opts : list opt) : M locals :=
  l <- run_to_logging opts ;; step_idmaps l ;;; ret l.

Definition run_to_forward (opts : list opt) : M locals :=
  l <- run_to_idmaps opts ;; step_ambient l ;;; step_forward l ;;; ret l.

Definition run_to_binding (opts : list opt) : M locals :=
  l <- run_to_forward opts ;; step_binding l ;;; ret l.

Definition run_to_remount (opts : list opt) : M locals :=
  l <- run_to_binding opts ;; step_remount l ;;; ret l.

Definition run_to_elftype (opts : list opt) (rest : list string)
  : M locals :=
  l <- run_to_remount opts ;;
  step_seccomp_filters l ;;;
  program <- step_program rest ;;
  step_elftype program l.

(** [parse_args]: [opts] are the options [getopt_long] finds in [argv],
    [rest] is what is left of [argv] from [optind] on.  The result is
    the final state of the local variables, with the two values written
    through [exit_immediately] and [elftype]; the [optind] returned in
    C is what separates [opts] from [rest]. *)
Definition parse_args (opts : list opt) (rest : list string) : M locals :=
  l <- run_to_elftype opts rest ;; step_static_caps l ;;; ret l.

(** [main].  [return] from [main] after a message on [stderr] is put as
    the [exit] it amounts to. *)
Definition main (opts : list opt) (rest : list string) : M Z :=
  l <- parse_args opts rest ;;
  match rest with
  | [] => undefined
  | argv0 :: _ =>
      (match setpgid_errno sys with
       | Some errno =>
           if negb (errno =? EPERM)
           then die 1 ("setpgid(0, 0) failed" ++ nl)
           else ret tt
       | None => ret tt
       end) ;;;
      (match elftype l with
       | ELFSTATIC => call (minijail_run_no_preload argv0 rest)
       | ELFDYNAMIC =>
           if negb (dlopen_preload_ok sys)
           then die 1 ("dlopen(): " ++ dlerror sys ++ nl)
           else call (minijail_run argv0 rest)
       | ELFERROR =>
           die 1 ("Target program '" ++ argv0
                    ++ "' is not a valid ELF file." ++ nl)
       end) ;;;
      if exit_immediately l then
        emit (Log_info ("not running init loop, exiting immediately" ++ nl)) ;;;
        ret 0
      else call_int minijail_wait
  end.

End Front_end.

End Minijail0.

(** ** Reading a run *)

Module Reading.

Import Minijail0.

(** Recognisers of options. *)
Definition is_b (o : opt) : bool :=
  match o with Opt_b _ => true | _ => false end.
Definition is_c (o : opt) : bool :=
  match o with Opt_c _ => true | _ => false end.
Definition is_C (o : opt) : bool :=
  match o with Opt_C _ => true | _ => false end.
Definition is_P (o : opt) : bool :=
  match o with Opt_P _ => true | _ => false end.
Definition is_v (o : opt) : bool :=
  match o with Opt_v => true | _ => false end.
Definition is_K (o : opt) : bool :=
  match o with Opt_K => true | _ => false end.
Definition is_ambient (o : opt) : bool :=
  match o with Opt_ambient => true | _ => false end.
Definition is_u (o : opt) : bool :=
  match o with Opt_u _ => true | _ => false end.

(** Some option of [opts] is recognised by [p]. *)
Definition has (p : opt -> bool) (opts : list opt) : bool := existsb p opts.

(** The argument of the last [-m] of [opts], starting from [acc]: [None]
    without any [-m], [Some None] when the last one carries no map. *)
Fixpoint last_uidmap (opts : list opt) (acc : option (option string))
  : option (option string) :=
  match opts with
  | [] => acc
  | Opt_m optarg :: opts' => last_uidmap opts' (Some optarg)
  | _ :: opts' => last_uidmap opts' acc
  end.

(** The same, read from the local variables. *)
Definition uidmap_request (l : locals) : option (option string) :=
  if set_uidmap l then Some (uidmap l) else None.

(** Whether the process has [CAP_SETGID] in its effective set, as
    [has_cap_setgid] finds out when none of its calls fails. *)
Definition holds_cap_setgid (sys : system) : bool :=
  cap_is_supported_setgid sys
  && match cap_get_flag_setgid sys with Some v => v | None => false end.

(** How the target was started, read off the trace of [main]:
    [DirectExec] by [minijail_run_no_preload], [PreloadExec] by
    [minijail_run], which injects the preload library; [Reject] when it
    was not started. *)
Inductive strategy := DirectExec | PreloadExec | Reject.

Definition is_run_no_preload (e : event) : bool :=
  match e with Call (minijail_run_no_preload _ _) => true | _ => false end.
Definition is_run (e : event) : bool :=
  match e with Call (minijail_run _ _) => true | _ => false end.

Definition launch_strategy (tr : list event) : strategy :=
  if existsb is_run_no_preload tr then DirectExec
  else if existsb is_run tr then PreloadExec
  else Reject.

(** Events of the id-map set-up that matter for [setgroups]. *)
Definition is_gidmap (e : event) : bool :=
  match e with Call (minijail_gidmap _) => true | _ => false end.
Definition is_disable_setgroups (e : event) : bool :=
  match e with
  | Call minijail_namespace_user_disable_setgroups => true
  | _ => false
  end.
Definition is_uidmap (e : event) : bool :=
  match e with Call (minijail_uidmap _) => true | _ => false end.

(** A specification of a computation: whatever the trace [tr] it starts
    from, it ends with [tr] followed by events that satisfy [Q], with a
    result that satisfies [Pr] when it returns, and a status and a message
    that satisfy [Px] when it exits. *)
Definition sat {A} (Q : list event -> Prop) (Px : Z -> string -> Prop)
    (m : M A) (Pr : A -> Prop) : Prop :=
  forall tr o tr',
    m tr = (o, tr') ->
    (exists evs, tr' = (tr ++ evs)%list /\ Q evs) /\
    match o with
    | Ret a => Pr a
    | Exit status err => Px status err
    | Undefined => True
    end.

(** Events that neither set an id map, nor touch [setgroups], nor start
    the target. *)
Definition quiet (e : event) : bool :=
  negb (is_gidmap e || is_disable_setgroups e || is_uidmap e
        || is_run e || is_run_no_preload e).

Definition all_quiet (evs : list event) : Prop :=
  Forall (fun e => quiet e = true) evs.

Definition no_run (e : event) : bool :=
  negb (is_run e || is_run_no_preload e).

Definition none_runs (evs : list event) : Prop :=
  Forall (fun e => no_run e = true) evs.

(** The messages of the four checks on combinations of options that
    [parse_args] makes after its loop. *)
Definition check_msgs : list string :=
  [MSG_AMBIENT; MSG_BIND; MSG_REMOUNT; MSG_STATIC_CAPS].

Definition not_a_check (status : Z) (msg : string) : Prop :=
  ~ In msg check_msgs.

(** What one option does to the local variables the checks read. *)
Definition opt_effect (o : opt) (l l' : locals) : Prop :=
  chroot l' = chroot l || is_C o /\
  pivot_root l' = pivot_root l || is_P o /\
  mount_ns l' = mount_ns l || is_v o /\
  binding l' = binding l || is_b o /\
  skip_remount l' = skip_remount l || is_K o /\
  caps l' = caps l || is_c o /\
  ambient_caps l' = ambient_caps l || is_ambient o /\
  uidmap_request l' = last_uidmap [o] (uidmap_request l) /\
  (is_u o = false -> uid l' = uid l) /\
  (chroot l && pivot_root l = false -> chroot l' && pivot_root l' = false).

(** The same for a list of options. *)
Definition opts_effect (opts : list opt) (l l' : locals) : Prop :=
  chroot l' = chroot l || has is_C opts /\
  pivot_root l' = pivot_root l || has is_P opts /\
  mount_ns l' = mount_ns l || has is_v opts /\
  binding l' = binding l || has is_b opts /\
  skip_remount l' = skip_remount l || has is_K opts /\
  caps l' = caps l || has is_c opts /\
  ambient_caps l' = ambient_caps l || has is_ambient opts /\
  uidmap_request l' = last_uidmap opts (uidmap_request l) /\
  (has is_u opts = false -> uid l' = uid l) /\
  (chroot l && pivot_root l = false -> chroot l' && pivot_root l' = false).

(** The local variables after the loop over [opts], as the checks read
    them. *)
Definition collected (opts : list opt) (l : locals) : Prop :=
  opts_effect opts locals0 l.

(** The combinations of options that pass the checks made in the loop
    and after it. *)
Definition accepted (opts : list opt) : Prop :=
  has is_ambient opts && negb (has is_c opts) = false /\
  has is_b opts && negb (has is_C opts || has is_P opts || has is_v opts) = false /\
  has is_K opts && negb (has is_v opts) = false /\
  has is_C opts && has is_P opts = false.

(** What holds of the local variables when [parse_args] gets past the
    choice of the ELF type. *)
Definition returned (opts : list opt) (rest : list string) (l : locals) : Prop :=
  caps l = has is_c opts /\ ambient_caps l = has is_ambient opts /\
  accepted opts /\ rest <> [].

(** The discipline of [setgroups] on a sequence of events, for a process
    that holds [CAP_SETGID] or not: with the capability [setgroups] is
    never disabled; without it every gid map is set right after
    [setgroups] has been disabled. *)
Definition setgroups_ok (sys : system) (evs : list event) : Prop :=
  (holds_cap_setgid sys = true ->
   Forall (fun e => is_disable_setgroups e = false) evs) /\
  (holds_cap_setgid sys = false ->
   forall map, In (Call (minijail_gidmap map)) evs ->
     exists before after,
       evs = (before
              ++ [Call minijail_namespace_user_disable_setgroups;
                  Call (minijail_gidmap map)]
              ++ after)%list).

(** Specifications that say nothing of the events, or of the exits. *)
Definition any_events (evs : list event) : Prop := True.
Definition any_exit (status : Z) (msg : string) : Prop := True.

(** An exit whose message is not [msg]. *)
Definition never_msg (msg : string) (status : Z) (err : string) : Prop :=
  err <> msg.

(** A system for the examples: an unprivileged caller with uid and gid
    1000, a jail whose calls all succeed, a statically linked target. *)
Definition sys_static : system :=
  {| getuid := 1000; getgid := 1000;
     lookup_user := fun _ => None; lookup_group := fun _ => None;
     jail_ret := fun _ _ => 0; original_path := fun _ p => p;
     parse_size := fun _ => None;
     cap_is_supported_setgid := true; cap_get_proc_ok := true;
     cap_get_flag_setgid := Some false; cap_free_ok := true;
     access_x_ok := fun _ => true; get_elf_linkage := fun _ => ELFSTATIC;
     dlopen_preload_ok := true; dlerror := ""; setpgid_errno := None;
     long_bits := 64 |}.

End Reading.

(** ** Reading a run: the rest of the local variables and the events *)

Module Coverage.

Import Libc Minijail0 Reading.

(** More recognisers of options. *)
Definition is_G (o : opt) : bool := match o with Opt_G => true | _ => false end.
Definition is_y (o : opt) : bool := match o with Opt_y => true | _ => false end.
Definition is_s (o : opt) : bool := match o with Opt_s => true | _ => false end.
Definition is_S (o : opt) : bool := match o with Opt_S _ => true | _ => false end.
Definition is_i (o : opt) : bool := match o with Opt_i => true | _ => false end.
Definition is_z (o : opt) : bool := match o with Opt_z => true | _ => false end.
Definition is_T (o : opt) : bool := match o with Opt_T _ => true | _ => false end.
Definition is_m (o : opt) : bool := match o with Opt_m _ => true | _ => false end.
Definition is_M (o : opt) : bool := match o with Opt_M _ => true | _ => false end.

(** The argument of the last [-M] of [opts], as [last_uidmap] for [-m]. *)
Fixpoint last_gidmap (opts : list opt) (acc : option (option string))
  : option (option string) :=
  match opts with
  | [] => acc
  | Opt_M optarg :: opts' => last_gidmap opts' (Some optarg)
  | _ :: opts' => last_gidmap opts' acc
  end.

(** The same, read from the local variables. *)
Definition gidmap_request (l : locals) : option (option string) :=
  if set_gidmap l then Some (gidmap l) else None.

(** The file of the last [-S] of [opts]. *)
Fixpoint last_filter (opts : list opt) (acc : option string) : option string :=
  match opts with
  | [] => acc
  | Opt_S optarg :: opts' => last_filter opts' (Some optarg)
  | _ :: opts' => last_filter opts' acc
  end.

(** The ELF type named by an argument that [-T] accepts. *)
Definition elftype_of (optarg : string) : ElfType :=
  if String.eqb optarg "static" then ELFSTATIC else ELFDYNAMIC.

(** The ELF type named by the last [-T] of [opts]. *)
Fixpoint last_elftype (opts : list opt) (acc : ElfType) : ElfType :=
  match opts with
  | [] => acc
  | Opt_T optarg :: opts' => last_elftype opts' (elftype_of optarg)
  | _ :: opts' => last_elftype opts' acc
  end.

(** Whether the last [--logging] of [opts] names [stderr], for arguments
    that the option accepts. *)
Fixpoint last_logging (opts : list opt) (acc : bool) : bool :=
  match opts with
  | [] => acc
  | Opt_logging optarg :: opts' => last_logging opts' (String.eqb optarg "stderr")
  | _ :: opts' => last_logging opts' acc
  end.

(** The local variables of [parse_args] that the claims leave aside, as
    the rest of [parse_args] and [main] read them: [s_mode1] and [s_mode2]
    say whether [seccomp] is 1 or 2. *)
Record summary := {
  s_forward : bool;
  s_exit_immediately : bool;
  s_inherit : bool;
  s_keep : bool;
  s_mode1 : bool;
  s_mode2 : bool;
  s_use_filter : bool;
  s_filter_path : option string;
  s_gidmap : option (option string);
  s_elftype : ElfType;
  s_stderr : bool
}.

Definition summary_of (l : locals) : summary :=
  {| s_forward := forward l;
     s_exit_immediately := exit_immediately l;
     s_inherit := inherit_suppl_gids l;
     s_keep := keep_suppl_gids l;
     s_mode1 := seccomp l =? 1;
     s_mode2 := seccomp l =? 2;
     s_use_filter := use_seccomp_filter l;
     s_filter_path := filter_path l;
     s_gidmap := gidmap_request l;
     s_elftype := elftype l;
     s_stderr := log_to_stderr l |}.

(** The summary after the loop has handled [opts] without error. *)
Definition after_opts (opts : list opt) (s : summary) : summary :=
  {| s_forward := s_forward s && negb (has is_z opts);
     s_exit_immediately := s_exit_immediately s || has is_i opts;
     s_inherit := s_inherit s || has is_G opts;
     s_keep := s_keep s || has is_y opts;
     s_mode1 := s_mode1 s || has is_s opts;
     s_mode2 := s_mode2 s || has is_S opts;
     s_use_filter := s_use_filter s || has is_S opts;
     s_filter_path := last_filter opts (s_filter_path s);
     s_gidmap := last_gidmap opts (s_gidmap s);
     s_elftype := last_elftype opts (s_elftype s);
     s_stderr := last_logging opts (s_stderr s) |}.

(** The events that only the code after the loop produces. *)
Definition post_only (e : event) : bool :=
  match e with
  | Call (minijail_uidmap _)
  | Call (minijail_gidmap _)
  | Call minijail_namespace_user_disable_setgroups
  | Call minijail_forward_signals
  | Call (minijail_parse_seccomp_filters _)
  | Call (minijail_get_original_path _)
  | Call (minijail_run_no_preload _ _)
  | Call (minijail_run _ _)
  | Call minijail_wait
  | Call (minijail_preserve_fd _ _)
  | Init_logging_stderr
  | Log_info _ => true
  | _ => false
  end.

(** Events that the loop may produce. *)
Definition from_loop (evs : list event) : Prop :=
  Forall (fun e => post_only e = false) evs.

(** What the loop over [opts] does to the summary, with the exclusion of
    [-G] and [-y] that it keeps. *)
Definition loop_effect (opts : list opt) (l l' : locals) : Prop :=
  summary_of l' = after_opts opts (summary_of l) /\
  (inherit_suppl_gids l && keep_suppl_gids l = false ->
   inherit_suppl_gids l' && keep_suppl_gids l' = false).

(** All that is known of the local variables after the loop over [opts]. *)
Definition gathered (opts : list opt) (l : locals) : Prop :=
  collected opts l /\ loop_effect opts locals0 l.

(** What must hold of the command line and of the system for an event to
    occur in a run of [main]. *)
Definition justified (sys : system) (opts : list opt) (rest : list string)
    (e : event) : Prop :=
  match e with
  | Call (minijail_uidmap map) =>
      exists request,
        last_uidmap opts None = Some request /\
        (forall m, request = Some m -> map = m)
  | Call (minijail_gidmap map) =>
      exists request,
        last_gidmap opts None = Some request /\
        (forall m, request = Some m -> map = m)
  | Call minijail_namespace_user_disable_setgroups => has is_M opts = true
  | Call minijail_forward_signals => has is_z opts = false
  | Call (minijail_parse_seccomp_filters path) =>
      accepted opts /\ has is_S opts = true /\ path = last_filter opts None
  | Call (minijail_get_original_path program) =>
      has is_T opts = false /\ hd_error rest = Some program
  | Call (minijail_run_no_preload filename argv) =>
      hd_error rest = Some filename /\ argv = rest
  | Call (minijail_run filename argv) =>
      hd_error rest = Some filename /\ argv = rest /\
      dlopen_preload_ok sys = true
  | Call minijail_wait => has is_i opts = false
  | Log_info _ => has is_i opts = true
  | Call (minijail_preserve_fd _ _) | Init_logging_stderr =>
      last_logging opts false = true
  | _ => True
  end.

Definition all_justified (sys : system) (opts : list opt) (rest : list string)
    (evs : list event) : Prop :=
  Forall (justified sys opts rest) evs.

(** The messages of the two exclusions checked in the loop. *)
Definition MSG_GROUPS : string := "-y and -G are not compatible." ++ nl.
Definition MSG_SECCOMP : string := "Do not use -s & -S together." ++ nl.

End Coverage.

(** * Properties *)

Import Libc Minijail0 Reading.

(** ** The models at work *)

Example strtoull_hex : strtoull "0x1f" 16 = (31, "").
Proof. reflexivity. Qed.

Example strtoull_trailing : strtoull "1fz" 16 = (31, "z").
Proof. reflexivity. Qed.

Example strtoull_empty : strtoull "" 16 = (0, "").
Proof. reflexivity. Qed.

Example strtoull_no_digit : strtoull "0xg" 16 = (0, "xg").
Proof. reflexivity. Qed.

Example strtoull_minus : strtoull "-1" 16 = (Int.ULLONG_MAX, "").
Proof. reflexivity. Qed.

Example strtod_name : strtod "root" = (DFinite false 0 0, "root").
Proof. reflexivity. Qed.

Example strtod_rounds :
  double_to_int (fst (strtod "0.99999999999999999999")) = Some 1.
Proof. vm_compute. reflexivity. Qed.

Example strtod_too_large : double_to_int (fst (strtod "1e10")) = None.
Proof. vm_compute. reflexivity. Qed.

Example strtok_skips_empty : strtok_all "," ",a,,b,1" = ["a"; "b"; "1"].
Proof. reflexivity. Qed.

Example fmt_d_negative : fmt_d (-2147483648) = "-2147483648".
Proof. reflexivity. Qed.

(** An id of 2^31 or more is printed by [%d] as a negative number. *)
Example build_idmap_large_id :
  build_idmap 4294967294 1000 [] = (Ret "-2 1000 1", []).
Proof. reflexivity. Qed.

(** [-P] enters a mount namespace on the jail but leaves [mount_ns] unset,
    so [-K] with [-P] and without [-v] is refused. *)
Example skip_remount_with_pivot_root :
  parse_args sys_static [Opt_K; Opt_P "/x"] ["/bin/true"] []
  = (Exit 1 MSG_REMOUNT,
     [Call minijail_skip_remount_private;
      Call (minijail_enter_pivot_root "/x"); Call minijail_namespace_vfs;
      Call minijail_forward_signals]).
Proof. reflexivity. Qed.

(** A dynamically linked target goes through the preload library. *)
Example dynamic_target_is_preloaded :
  launch_strategy
    (snd (main sys_static [Opt_T "dynamic"; Opt_c "ff"] ["/bin/true"] []))
  = PreloadExec.
Proof. reflexivity. Qed.

(** ** The logic of [sat] *)

Section Sat.

Variable Q : list event -> Prop.
Variable Px : Z -> string -> Prop.
Hypothesis Q_nil : Q [].
Hypothesis Q_app : forall a b, Q a -> Q b -> Q (a ++ b)%list.

Lemma sat_ret A (a : A) (Pr : A -> Prop) : Pr a -> sat Q Px (ret a) Pr.
Proof.
  intros Ha tr o tr' E. inversion E; subst. split; [|exact Ha].
  exists []. now rewrite app_nil_r.
Qed.

Lemma sat_die A status msg (Pr : A -> Prop) :
  Px status msg -> sat Q Px (die status msg) Pr.
Proof.
  intros Hx tr o tr' E. inversion E; subst. split; [|exact Hx].
  exists []. now rewrite app_nil_r.
Qed.

Lemma sat_undefined A (Pr : A -> Prop) : sat Q Px undefined Pr.
Proof.
  intros tr o tr' E. inversion E; subst. split; [|exact I].
  exists []. now rewrite app_nil_r.
Qed.

Lemma sat_emit e (Pr : unit -> Prop) :
  Q [e] -> Pr tt -> sat Q Px (emit e) Pr.
Proof.
  intros He Hr tr o tr' E. inversion E; subst. split; [|exact Hr].
  now exists [e].
Qed.

Lemma sat_bind A B (m : M A) (k : A -> M B) Pa (Pr : B -> Prop) :
  sat Q Px m Pa -> (forall a, Pa a -> sat Q Px (k a) Pr) ->
  sat Q Px (bind m k) Pr.
Proof.
  intros Hm Hk tr o tr' E. unfold bind in E.
  destruct (m tr) as [o1 tr1] eqn:E1.
  destruct (Hm _ _ _ E1) as [[evs1 [-> Q1]] P1].
  destruct o1 as [a | status err | ].
  - destruct (Hk a P1 _ _ _ E) as [[evs2 [-> Q2]] P2].
    split; [|exact P2]. exists (evs1 ++ evs2)%list.
    now rewrite app_assoc; auto.
  - inversion E; subst. split; [|exact P1]. now exists evs1.
  - inversion E; subst. split; [|exact I]. now exists evs1.
Qed.

Lemma sat_then A B (m : M A) (k : A -> M B) (Pr : B -> Prop) :
  sat Q Px m (fun _ => True) -> (forall a, sat Q Px (k a) Pr) ->
  sat Q Px (bind m k) Pr.
Proof. intros Hm Hk. eapply sat_bind; [exact Hm | auto]. Qed.

Lemma sat_weaken A (m : M A) (Pr Pr' : A -> Prop) :
  sat Q Px m Pr -> (forall a, Pr a -> Pr' a) -> sat Q Px m Pr'.
Proof.
  intros Hm Hw tr o tr' E. destruct (Hm _ _ _ E) as [He Ho].
  split; [exact He|]. destruct o; auto.
Qed.

Lemma sat_call_int sys c (Pr : Z -> Prop) :
  Q [Call c] -> (forall r, Pr r) -> sat Q Px (call_int sys c) Pr.
Proof.
  intros He Hr tr o tr' E. inversion E; subst. split; [|apply Hr].
  now exists [Call c].
Qed.

(** A computation that reads the trace it starts from. *)
Lemma sat_reading A (f : list event -> M A) (Pr : A -> Prop) :
  (forall tr0, sat Q Px (f tr0) Pr) -> sat Q Px (fun tr => f tr tr) Pr.
Proof. intros H tr o tr' E. exact (H tr _ _ _ E). Qed.

End Sat.

(** ** The loop over the options *)

Lemma all_quiet_nil : all_quiet [].
Proof. constructor. Qed.

Lemma all_quiet_app a b : all_quiet a -> all_quiet b -> all_quiet (a ++ b)%list.
Proof. intros; apply Forall_app; auto. Qed.

Ltac sat_step Hnil Happ :=
  lazymatch goal with
  | |- sat _ _ (ret _) _ => apply sat_ret; [exact Hnil | ]
  | |- sat _ _ (die _ _) _ => apply sat_die; [exact Hnil | ]
  | |- sat _ _ undefined _ => apply sat_undefined; exact Hnil
  | |- sat _ _ (emit _) _ => apply sat_emit
  | |- sat _ _ (call _) _ => apply sat_emit
  | |- sat _ _ (call_int _ _) _ => apply sat_call_int
  | |- sat _ _ (bind _ _) _ => apply (sat_then Happ); [ | intro ]
  | |- sat _ _ (let _ := _ in _) _ => cbv zeta
  | |- sat _ _ (if ?b then _ else _) _ => destruct b eqn:?
  | |- sat _ _ (match ?x with _ => _ end) _ => destruct x eqn:?
  end.

Ltac quiet_side :=
  lazymatch goal with
  | |- all_quiet _ => repeat constructor
  | |- not_a_check _ _ =>
      unfold not_a_check, check_msgs, MSG_AMBIENT, MSG_BIND, MSG_REMOUNT,
        MSG_STATIC_CAPS, MSG_CHROOT_PIVOT, MSG_PIVOT_CHROOT, nl; simpl; intuition discriminate
  | |- True => exact I
  | |- forall _, _ => intros; exact I
  | _ => idtac
  end.

Ltac effect_side :=
  lazymatch goal with
  | |- opt_effect _ _ _ =>
      unfold opt_effect, uidmap_request;
      match goal with l : locals |- _ => destruct l end; simpl in *; subst;
      repeat split; auto using orb_false_r, orb_true_r;
      try (intros; try discriminate; auto using orb_false_r, orb_true_r)
  | _ => idtac
  end.

Lemma parse_opt_sat sys o l :
  sat all_quiet not_a_check (parse_opt sys o l) (opt_effect o l).
Proof.
  destruct o; unfold parse_opt, set_user, set_group, skip_securebits, use_caps,
    add_binding, add_rlimit, add_mount;
  repeat (sat_step all_quiet_nil all_quiet_app); quiet_side; effect_side.
Qed.

Lemma parse_opts_sat sys opts : forall l,
  sat all_quiet not_a_check (parse_opts sys opts l) (opts_effect opts l).
Proof.
  induction opts as [|o opts IH]; intro l; simpl.
  - apply sat_ret; [exact all_quiet_nil|].
    unfold opts_effect, has; simpl. rewrite !orb_false_r. tauto.
  - eapply (sat_bind all_quiet_app); [apply parse_opt_sat|].
    intros l1 E1. eapply sat_weaken; [apply IH|].
    intros l2 E2. unfold opt_effect in E1. unfold opts_effect, has in *. simpl.
    destruct E1 as (a1 & a2 & a3 & a4 & a5 & a6 & a7 & a8 & a9 & a10).
    destruct E2 as (b1 & b2 & b3 & b4 & b5 & b6 & b7 & b8 & b9 & b10).
    pose proof (fun H => b10 (a10 H)) as inv.
    rewrite b1, b2, a1, a2 in inv; rewrite ?orb_assoc in inv.
    rewrite b1, b2, b3, b4, b5, b6, b7, b8, a1, a2, a3, a4, a5, a6, a7, a8.
    rewrite ?orb_assoc. repeat split; auto.
    + destruct o; reflexivity.
    + intros H. apply orb_false_elim in H. destruct H as [H1 H2].
      rewrite (b9 H2). auto.
Qed.

(** ** Running a computation whose first part is known *)

Lemma bind_ret_eq A B (m : M A) (k : A -> M B) tr a tr1 :
  m tr = (Ret a, tr1) -> bind m k tr = k a tr1.
Proof. intros E. unfold bind. now rewrite E. Qed.

Lemma bind_exit_eq A B (m : M A) (k : A -> M B) tr status err tr1 :
  m tr = (Exit status err, tr1) -> bind m k tr = (Exit status err, tr1).
Proof. intros E. unfold bind. now rewrite E. Qed.

Lemma parse_opts_app sys a b : forall l tr,
  parse_opts sys (a ++ b) l tr = bind (parse_opts sys a l) (parse_opts sys b) tr.
Proof.
  induction a as [|o a IH]; intros l tr; simpl.
  - reflexivity.
  - unfold bind. destruct (parse_opt sys o l tr) as [[l1| |] tr1]; auto.
Qed.

(** ** [sat]: consequence, and checks *)

Lemma sat_weaken_all A (Q Q' : list event -> Prop) (Px Px' : Z -> string -> Prop)
    (m : M A) (Pr Pr' : A -> Prop) :
  sat Q Px m Pr ->
  (forall evs, Q evs -> Q' evs) ->
  (forall status err, Px status err -> Px' status err) ->
  (forall a, Pr a -> Pr' a) ->
  sat Q' Px' m Pr'.
Proof.
  intros Hm HQ HX HR tr o tr' E. destruct (Hm _ _ _ E) as [[evs [-> Hq]] Ho].
  split; [exists evs; auto|]. destruct o; auto.
Qed.

Section Sat_more.

Variable Q : list event -> Prop.
Variable Px : Z -> string -> Prop.
Hypothesis Q_nil : Q [].
Hypothesis Q_app : forall a b, Q a -> Q b -> Q (a ++ b)%list.

(** [m ;;; ret a]. *)
Lemma sat_keep A B (m : M A) (b : B) (Pr : B -> Prop) :
  sat Q Px m (fun _ => True) -> Pr b -> sat Q Px (m ;;; ret b) Pr.
Proof.
  intros Hm Hb. apply (sat_then Q_app); [exact Hm|].
  intros _. now apply sat_ret.
Qed.

(** [if (c) { fprintf(stderr, msg); exit(status); }]. *)
Lemma sat_check (c : bool) status msg :
  (c = true -> Px status msg) ->
  sat Q Px (if c then die status msg else ret tt) (fun _ => c = false).
Proof.
  intros H. destruct c.
  - apply sat_die; auto.
  - now apply sat_ret.
Qed.

End Sat_more.

(** ** The sections of [parse_args] after the loop *)

Lemma none_runs_nil : none_runs [].
Proof. constructor. Qed.

Lemma none_runs_app a b : none_runs a -> none_runs b -> none_runs (a ++ b)%list.
Proof. intros; apply Forall_app; auto. Qed.

Lemma all_quiet_none_runs evs : all_quiet evs -> none_runs evs.
Proof.
  apply Forall_impl. intros e. unfold quiet, no_run.
  destruct (is_run e), (is_run_no_preload e); simpl; auto;
    rewrite ?orb_true_r; auto.
Qed.

Ltac msg_side :=
  unfold not_a_check, check_msgs, MSG_AMBIENT, MSG_BIND, MSG_REMOUNT,
    MSG_STATIC_CAPS, MSG_CHROOT_PIVOT, MSG_PIVOT_CHROOT, nl;
  simpl; intuition discriminate.

Section Steps.

Variable sys : system.
Variable Q : list event -> Prop.
Variable Px : Z -> string -> Prop.
Hypothesis Q_nil : Q [].
Hypothesis Q_app : forall a b, Q a -> Q b -> Q (a ++ b)%list.
Hypothesis Q_quiet : forall evs, all_quiet evs -> Q evs.
Hypothesis Px_other : forall status msg, not_a_check status msg -> Px status msg.

Ltac side :=
  lazymatch goal with
  | |- Q _ => apply Q_quiet; repeat constructor
  | |- Px _ _ => apply Px_other; msg_side
  | |- True => exact I
  | |- forall _, _ => intros; exact I
  | _ => idtac
  end.

Lemma step_logging_sat l : sat Q Px (step_logging sys l) (fun _ => True).
Proof. unfold step_logging. repeat (sat_step Q_nil Q_app); side. Qed.

Lemma step_forward_sat l : sat Q Px (step_forward l) (fun _ => True).
Proof. unfold step_forward. repeat (sat_step Q_nil Q_app); side. Qed.

Lemma step_seccomp_filters_sat l :
  sat Q Px (step_seccomp_filters l) (fun _ => True).
Proof. unfold step_seccomp_filters. repeat (sat_step Q_nil Q_app); side. Qed.

Lemma step_program_sat rest :
  sat Q Px (step_program rest) (fun program => exists args, rest = program :: args).
Proof.
  unfold step_program. repeat (sat_step Q_nil Q_app); side. now eexists.
Qed.

Lemma step_elftype_sat program l :
  sat Q Px (step_elftype sys program l)
    (fun l' => caps l' = caps l /\ ambient_caps l' = ambient_caps l).
Proof.
  unfold step_elftype. destruct (ElfType_eqb (elftype l) ELFERROR).
  - apply (@sat_reading Q Px _
             (fun tr0 =>
                emit (Call (minijail_get_original_path program)) ;;;
                if negb (access_x_ok sys (original_path sys tr0 program))
                then die 1 ("Target program '" ++ program
                              ++ "' is not accessible." ++ nl)
                else ret (with_elftype
                            (get_elf_linkage sys (original_path sys tr0 program)) l))).
    intros tr0. repeat (sat_step Q_nil Q_app); side.
    destruct l; simpl; auto.
  - apply sat_ret; auto.
Qed.

End Steps.

Lemma collected_flags opts l :
  collected opts l ->
  chroot l = has is_C opts /\ pivot_root l = has is_P opts /\
  mount_ns l = has is_v opts /\ binding l = has is_b opts /\
  skip_remount l = has is_K opts /\ caps l = has is_c opts /\
  ambient_caps l = has is_ambient opts /\
  uidmap_request l = last_uidmap opts None /\
  (has is_u opts = false -> uid l = 0) /\
  has is_C opts && has is_P opts = false.
Proof.
  unfold collected, opts_effect. simpl.
  intros (a1 & a2 & a3 & a4 & a5 & a6 & a7 & a8 & a9 & a10).
  repeat split; auto. rewrite <- a1, <- a2. auto.
Qed.

Section Parse_args.

Variable sys : system.
Variable opts : list opt.
Variable rest : list string.
Variable Q : list event -> Prop.
Variable Px : Z -> string -> Prop.
Hypothesis Q_nil : Q [].
Hypothesis Q_app : forall a b, Q a -> Q b -> Q (a ++ b)%list.
Hypothesis Q_quiet : forall evs, all_quiet evs -> Q evs.
Hypothesis Q_idmaps : forall l, sat Q Px (step_idmaps sys l) (fun _ => True).
Hypothesis Px_other : forall status msg, not_a_check status msg -> Px status msg.
Hypothesis Px_ambient :
  has is_ambient opts && negb (has is_c opts) = true -> Px 1 MSG_AMBIENT.
Hypothesis Px_binding :
  has is_b opts && negb (has is_C opts || has is_P opts || has is_v opts) = true ->
  Px 1 MSG_BIND.
Hypothesis Px_remount :
  has is_K opts && negb (has is_v opts) = true -> Px 1 MSG_REMOUNT.
Hypothesis Px_static :
  has is_c opts && negb (has is_ambient opts) = true -> Px 1 MSG_STATIC_CAPS.

Lemma run_to_logging_sat : sat Q Px (run_to_logging sys opts) (collected opts).
Proof.
  unfold run_to_logging. eapply (sat_bind Q_app).
  - eapply sat_weaken_all; [apply parse_opts_sat | exact Q_quiet | exact Px_other | ].
    intros l H; exact H.
  - intros l Hl. apply sat_keep; auto. now apply step_logging_sat.
Qed.

Lemma run_to_idmaps_sat : sat Q Px (run_to_idmaps sys opts) (collected opts).
Proof.
  unfold run_to_idmaps. eapply (sat_bind Q_app); [apply run_to_logging_sat|].
  intros l Hl. apply sat_keep; auto.
Qed.

Lemma run_to_forward_sat :
  sat Q Px (run_to_forward sys opts)
    (fun l => collected opts l /\
              has is_ambient opts && negb (has is_c opts) = false).
Proof.
  unfold run_to_forward. eapply (sat_bind Q_app); [apply run_to_idmaps_sat|].
  intros l Hl. destruct (collected_flags Hl) as (_ & _ & _ & _ & _ & c & a & _).
  eapply (sat_bind Q_app).
  - unfold step_ambient. apply sat_check; auto. rewrite a, c. exact Px_ambient.
  - rewrite a, c. intros _ Ha. apply sat_keep; auto.
    now apply step_forward_sat.
Qed.

Lemma run_to_binding_sat :
  sat Q Px (run_to_binding sys opts)
    (fun l => collected opts l /\
              has is_ambient opts && negb (has is_c opts) = false /\
              has is_b opts
              && negb (has is_C opts || has is_P opts || has is_v opts) = false).
Proof.
  unfold run_to_binding. eapply (sat_bind Q_app); [apply run_to_forward_sat|].
  intros l [Hl Ha].
  destruct (collected_flags Hl) as (c & p & v & b & _).
  eapply (sat_bind Q_app).
  - unfold step_binding. apply sat_check; auto. rewrite c, p, v, b. exact Px_binding.
  - rewrite c, p, v, b. intros _ Hb. apply sat_ret; auto.
Qed.

Lemma run_to_remount_sat :
  sat Q Px (run_to_remount sys opts)
    (fun l => collected opts l /\ accepted opts).
Proof.
  unfold run_to_remount. eapply (sat_bind Q_app); [apply run_to_binding_sat|].
  intros l (Hl & Ha & Hb).
  destruct (collected_flags Hl) as (_ & _ & v & _ & k & _ & _ & _ & _ & cp).
  eapply (sat_bind Q_app).
  - unfold step_remount. apply sat_check; auto. rewrite k, v. exact Px_remount.
  - rewrite k, v. intros _ Hk. apply sat_ret; auto. unfold accepted. auto.
Qed.

Lemma run_to_elftype_sat :
  sat Q Px (run_to_elftype sys opts rest) (returned opts rest).
Proof.
  unfold run_to_elftype. eapply (sat_bind Q_app); [apply run_to_remount_sat|].
  intros l (Hl & Ha).
  destruct (collected_flags Hl) as (_ & _ & _ & _ & _ & c & a & _).
  apply (sat_then Q_app); [now apply step_seccomp_filters_sat|]. intros _.
  eapply (sat_bind Q_app); [now apply step_program_sat|].
  intros program [args ->].
  eapply sat_weaken; [now apply step_elftype_sat|].
  intros l' [c' a']. unfold returned. rewrite c', a'.
  refine (conj c (conj a (conj Ha _))). discriminate.
Qed.

Lemma parse_args_sat :
  sat Q Px (parse_args sys opts rest)
    (fun l => returned opts rest l /\
              caps l && ElfType_eqb (elftype l) ELFSTATIC
              && negb (ambient_caps l) = false).
Proof.
  unfold parse_args. eapply (sat_bind Q_app); [apply run_to_elftype_sat|].
  intros l Hl. eapply (sat_bind Q_app).
  - unfold step_static_caps. apply sat_check; auto.
    destruct Hl as (c & a & _). rewrite c, a. intros H. apply Px_static.
    destruct (has is_c opts), (has is_ambient opts); auto;
      simpl in H; rewrite ?andb_false_r in H; discriminate.
  - intros u Hs. apply sat_ret; auto.
Qed.

End Parse_args.

(** ** The id maps *)

Section Idmaps.

Variable sys : system.
Variable Q : list event -> Prop.
Variable Px : Z -> string -> Prop.
Hypothesis Q_nil : Q [].
Hypothesis Q_app : forall a b, Q a -> Q b -> Q (a ++ b)%list.
Hypothesis Q_one : forall e, no_run e = true -> Q [e].
Hypothesis Px_other : forall status msg, not_a_check status msg -> Px status msg.

Lemma step_idmaps_sat l : sat Q Px (step_idmaps sys l) (fun _ => True).
Proof.
  unfold step_idmaps, set_ugid_mapping, build_idmap, has_cap_setgid.
  repeat (sat_step Q_nil Q_app);
    lazymatch goal with
    | |- Q _ => apply Q_one; reflexivity
    | |- Px _ _ => apply Px_other; msg_side
    | |- True => exact I
    | |- forall _, _ => intros; exact I
    | _ => idtac
    end.
Qed.

End Idmaps.

Lemma setgroups_ok_nil sys : setgroups_ok sys [].
Proof. split; intros; [constructor | contradiction]. Qed.

Lemma setgroups_ok_app sys a b :
  setgroups_ok sys a -> setgroups_ok sys b -> setgroups_ok sys (a ++ b)%list.
Proof.
  intros [a1 a2] [b1 b2]. split; intros H.
  - apply Forall_app. auto.
  - intros map Hin. apply in_app_or in Hin. destruct Hin as [Hin | Hin].
    + destruct (a2 H map Hin) as (x & y & ->). exists x, (y ++ b)%list.
      now rewrite <- !app_assoc.
    + destruct (b2 H map Hin) as (x & y & ->). exists (a ++ x)%list, y.
      now rewrite <- !app_assoc.
Qed.

Lemma setgroups_ok_quiet sys evs : all_quiet evs -> setgroups_ok sys evs.
Proof.
  intros H. split; intros _.
  - revert H. apply Forall_impl. intros e. unfold quiet.
    destruct (is_disable_setgroups e); auto. now rewrite orb_true_r.
  - intros map Hin. exfalso. unfold all_quiet in H. rewrite Forall_forall in H.
    specialize (H _ Hin). simpl in H. discriminate.
Qed.

Lemma setgroups_ok_one sys e :
  is_gidmap e = false -> is_disable_setgroups e = false -> setgroups_ok sys [e].
Proof.
  intros Hg Hd. split; intros _.
  - now repeat constructor.
  - intros map [-> | []]. simpl in Hg. discriminate.
Qed.

Lemma has_cap_setgid_sat sys (Q : list event -> Prop) (Px : Z -> string -> Prop) :
  Q [] ->
  (forall status msg, not_a_check status msg -> Px status msg) ->
  sat Q Px (has_cap_setgid sys) (fun has => has = holds_cap_setgid sys).
Proof.
  intros Q_nil Px_other. unfold has_cap_setgid, holds_cap_setgid.
  destruct (cap_is_supported_setgid sys); simpl.
  - destruct (cap_get_proc_ok sys); simpl;
      [| apply sat_die; [exact Q_nil | apply Px_other; msg_side]].
    destruct (cap_get_flag_setgid sys) as [v|];
      [| apply sat_die; [exact Q_nil | apply Px_other; msg_side]].
    destruct (cap_free_ok sys); simpl;
      [| apply sat_die; [exact Q_nil | apply Px_other; msg_side]].
    now apply sat_ret.
  - now apply sat_ret.
Qed.

(** The end of [set_ugid_mapping]: [has_cap_setgid], then the gid map. *)
Lemma set_gidmap_sat sys (Px : Z -> string -> Prop) gidmap :
  (forall status msg, not_a_check status msg -> Px status msg) ->
  sat (setgroups_ok sys) Px
    (has <- has_cap_setgid sys ;;
     (if negb has then call minijail_namespace_user_disable_setgroups
      else ret tt) ;;;
     r <- call_int sys (minijail_gidmap gidmap) ;;
     if negb (0 =? r) then die 1 ("Could not set gid map." ++ nl) else ret tt)
    (fun _ => True).
Proof.
  intros Px_other.
  assert (X : Px 1 ("Could not set gid map." ++ nl)) by (apply Px_other; msg_side).
  generalize dependent ("Could not set gid map." ++ nl). intros msg X.
  eapply (sat_bind (@setgroups_ok_app sys));
    [apply has_cap_setgid_sat; [apply setgroups_ok_nil | exact Px_other] |].
  intros has ->. intros tr o tr' E.
  unfold bind, call, emit, call_int, die, ret in E.
  destruct (holds_cap_setgid sys) eqn:H; cbn [negb] in E;
    destruct (negb (0 =? _)); inversion E; subst; clear E;
    (split; [| auto]).
  - exists [Call (minijail_gidmap gidmap)]. split; auto.
    split; intros H1; [now repeat constructor | congruence].
  - exists [Call (minijail_gidmap gidmap)]. split; auto.
    split; intros H1; [now repeat constructor | congruence].
  - exists [Call minijail_namespace_user_disable_setgroups;
            Call (minijail_gidmap gidmap)].
    split; [now rewrite <- app_assoc|]. split; intros H1; [congruence|].
    intros map [Hm | [Hm | []]]; [discriminate|]. inversion Hm; subst.
    now exists [], [].
  - exists [Call minijail_namespace_user_disable_setgroups;
            Call (minijail_gidmap gidmap)].
    split; [now rewrite <- app_assoc|]. split; intros H1; [congruence|].
    intros map [Hm | [Hm | []]]; [discriminate|]. inversion Hm; subst.
    now exists [], [].
Qed.

Lemma step_idmaps_setgroups sys (Px : Z -> string -> Prop) l :
  (forall status msg, not_a_check status msg -> Px status msg) ->
  sat (setgroups_ok sys) Px (step_idmaps sys l) (fun _ => True).
Proof.
  intros Px_other.
  pose proof (@setgroups_ok_nil sys) as Q_nil.
  pose proof (@setgroups_ok_app sys) as Q_app.
  unfold step_idmaps, set_ugid_mapping, build_idmap.
  repeat (lazymatch goal with
          | |- sat _ _ (bind (has_cap_setgid _) _) _ =>
              apply set_gidmap_sat; exact Px_other
          | _ => sat_step Q_nil Q_app
          end);
    lazymatch goal with
    | |- setgroups_ok _ _ => apply setgroups_ok_one; reflexivity
    | |- Px _ _ => apply Px_other; msg_side
    | |- True => exact I
    | |- forall _, _ => intros; exact I
    | _ => idtac
    end.
Qed.

(** ** Runs from a given trace: what a result tells *)


Section Any.

Variable sys : system.
Variable opts : list opt.

Lemma any_nil : any_events [].
Proof. exact I. Qed.

Lemma any_app a b : any_events a -> any_events b -> any_events (a ++ b)%list.
Proof. intros; exact I. Qed.

Lemma any_idmaps l : sat any_events any_exit (step_idmaps sys l) (fun _ => True).
Proof. apply step_idmaps_sat; intros; exact I. Qed.

Lemma run_to_logging_ret tr l tr' :
  run_to_logging sys opts tr = (Ret l, tr') -> collected opts l.
Proof.
  intros E.
  exact (proj2 (@run_to_logging_sat sys opts any_events any_exit any_nil any_app
                  (fun _ _ => I) (fun _ _ _ => I) _ _ _ E)).
Qed.

Lemma run_to_forward_ret tr l tr' :
  run_to_forward sys opts tr = (Ret l, tr') ->
  collected opts l /\ has is_ambient opts && negb (has is_c opts) = false.
Proof.
  intros E.
  exact (proj2 (@run_to_forward_sat sys opts any_events any_exit any_nil any_app
                  (fun _ _ => I) any_idmaps (fun _ _ _ => I) (fun _ => I)
                  _ _ _ E)).
Qed.

Lemma run_to_binding_ret tr l tr' :
  run_to_binding sys opts tr = (Ret l, tr') ->
  collected opts l /\
  has is_ambient opts && negb (has is_c opts) = false /\
  has is_b opts
  && negb (has is_C opts || has is_P opts || has is_v opts) = false.
Proof.
  intros E.
  exact (proj2 (@run_to_binding_sat sys opts any_events any_exit any_nil any_app
                  (fun _ _ => I) any_idmaps (fun _ _ _ => I) (fun _ => I)
                  (fun _ => I) _ _ _ E)).
Qed.

Lemma run_to_elftype_ret rest tr l tr' :
  run_to_elftype sys opts rest tr = (Ret l, tr') -> returned opts rest l.
Proof.
  intros E.
  exact (proj2 (@run_to_elftype_sat sys opts rest any_events any_exit any_nil
                  any_app (fun _ _ => I) any_idmaps (fun _ _ _ => I)
                  (fun _ => I) (fun _ => I) (fun _ => I) _ _ _ E)).
Qed.

Lemma parse_args_ret rest tr l tr' :
  parse_args sys opts rest tr = (Ret l, tr') -> returned opts rest l.
Proof.
  intros E.
  exact (proj1 (proj2 (@parse_args_sat sys opts rest any_events any_exit any_nil
                  any_app (fun _ _ => I) any_idmaps (fun _ _ _ => I)
                  (fun _ => I) (fun _ => I) (fun _ => I) (fun _ => I)
                  _ _ _ E))).
Qed.

End Any.


Lemma has_app p (a b : list opt) : has p (a ++ b) = has p a || has p b.
Proof. apply existsb_app. Qed.

Lemma has_insert p (a b : list opt) o :
  has p (a ++ o :: b) = p o || has p (a ++ b).
Proof.
  rewrite !has_app. simpl. destruct (has p a), (p o); reflexivity.
Qed.

Lemma never_msg_other msg :
  In msg check_msgs ->
  forall status err, not_a_check status err -> never_msg msg status err.
Proof. intros Hin status err Hn ->. contradiction. Qed.

Lemma never_msg_idmaps sys msg l :
  In msg check_msgs ->
  sat any_events (never_msg msg) (step_idmaps sys l) (fun _ => True).
Proof.
  intros Hin. apply step_idmaps_sat; try (intros; exact I).
  now apply never_msg_other.
Qed.

(** With a new mount namespace among the options, [parse_args] never exits
    for want of one. *)
Lemma remount_not_refused sys opts rest :
  has is_K opts && negb (has is_v opts) = false ->
  sat any_events (never_msg MSG_REMOUNT) (parse_args sys opts rest)
    (fun _ => True).
Proof.
  intros H.
  assert (Hin : In MSG_REMOUNT check_msgs) by (simpl; auto).
  eapply sat_weaken;
    [apply (@parse_args_sat sys opts rest any_events (never_msg MSG_REMOUNT)
              any_nil any_app (fun _ _ => I)
              (fun l => never_msg_idmaps sys l Hin) (never_msg_other Hin))
    | auto].
  - intros _. unfold never_msg, MSG_AMBIENT, MSG_REMOUNT. simpl. discriminate.
  - intros _. unfold never_msg, MSG_BIND, MSG_REMOUNT. simpl. discriminate.
  - rewrite H. discriminate.
  - intros _. unfold never_msg, MSG_STATIC_CAPS, MSG_REMOUNT. simpl. discriminate.
Qed.

Lemma bind_not_refused sys opts rest :
  has is_b opts && negb (has is_C opts || has is_P opts || has is_v opts) = false ->
  sat any_events (never_msg MSG_BIND) (parse_args sys opts rest)
    (fun _ => True).
Proof.
  intros H.
  assert (Hin : In MSG_BIND check_msgs) by (simpl; auto).
  eapply sat_weaken;
    [apply (@parse_args_sat sys opts rest any_events (never_msg MSG_BIND)
              any_nil any_app (fun _ _ => I)
              (fun l => never_msg_idmaps sys l Hin) (never_msg_other Hin))
    | auto].
  - intros _. unfold never_msg, MSG_AMBIENT, MSG_BIND. simpl. discriminate.
  - rewrite H. discriminate.
  - intros _. unfold never_msg, MSG_REMOUNT, MSG_BIND. simpl. discriminate.
  - intros _. unfold never_msg, MSG_STATIC_CAPS, MSG_BIND. simpl. discriminate.
Qed.

Lemma never_msg_run A (m : M A) msg status tr tr' :
  sat any_events (never_msg msg) m (fun _ => True) ->
  m tr <> (Exit status msg, tr').
Proof.
  intros H E. destruct (H _ _ _ E) as [_ X]. now apply X.
Qed.

(** ** Claims *)

(** C4 as stated fails: [-P] and [-V] each put the jail in a mount
    namespace ([minijail_namespace_vfs], [minijail_namespace_enter_vfs]),
    and [-K] with either of them is still refused by the MS_PRIVATE check,
    which looks at [mount_ns] only. *)
Lemma skip_remount_refused_in_mount_ns :
  parse_args sys_static [Opt_K; Opt_P "/x"] ["/bin/true"] []
  = (Exit 1 MSG_REMOUNT,
     [Call minijail_skip_remount_private;
      Call (minijail_enter_pivot_root "/x"); Call minijail_namespace_vfs;
      Call minijail_forward_signals]) /\
  parse_args sys_static [Opt_K; Opt_V "/proc/1/ns/mnt"] ["/bin/true"] []
  = (Exit 1 MSG_REMOUNT,
     [Call minijail_skip_remount_private;
      Call (minijail_namespace_enter_vfs "/proc/1/ns/mnt");
      Call minijail_forward_signals]).
Proof. split; reflexivity. Qed.

(** C4, amended. Among options that ask to skip marking the mounts private
    ([-K]), the request passes iff the options also ask for a new mount
    namespace by [-v], the only option that sets [mount_ns].  With [-v],
    [parse_args] never exits with the message of this check, and a run
    that reaches the check goes past it.  Without [-v], [parse_args] never
    returns, and a run that reaches the check exits there with status 1
    and the message of the check. *)
Theorem skip_remount_iff_mount_ns sys opts rest :
  has is_K opts = true ->
  (has is_v opts = true ->
     (forall status tr,
        parse_args sys opts rest [] <> (Exit status MSG_REMOUNT, tr)) /\
     (forall l tr,
        run_to_binding sys opts [] = (Ret l, tr) ->
        run_to_remount sys opts [] = (Ret l, tr))) /\
  (has is_v opts = false ->
     (forall l tr, parse_args sys opts rest [] <> (Ret l, tr)) /\
     (forall l tr,
        run_to_binding sys opts [] = (Ret l, tr) ->
        parse_args sys opts rest [] = (Exit 1 MSG_REMOUNT, tr))).
Proof.
  intros HK. split; intros Hv.
  - split.
    + intros status tr. apply never_msg_run, remount_not_refused.
      now rewrite Hv, andb_false_r.
    + intros l tr E. destruct (run_to_binding_ret _ _ _ E) as [Hl _].
      destruct (collected_flags Hl) as (_ & _ & v & _ & k & _).
      unfold run_to_remount. erewrite bind_ret_eq by exact E.
      unfold step_remount. rewrite v, k, HK, Hv. reflexivity.
  - split.
    + intros l tr E. destruct (parse_args_ret _ _ _ _ E) as (_ & _ & (_ & _ & k & _) & _).
      rewrite HK, Hv in k. discriminate.
    + intros l tr E. destruct (run_to_binding_ret _ _ _ E) as [Hl _].
      destruct (collected_flags Hl) as (_ & _ & v & _ & k & _).
      unfold parse_args, run_to_elftype.
      assert (R : run_to_remount sys opts [] = (Exit 1 MSG_REMOUNT, tr)).
      { unfold run_to_remount. erewrite bind_ret_eq by exact E.
        unfold step_remount. rewrite v, k, HK, Hv. reflexivity. }
      now do 2 apply bind_exit_eq.
Qed.

Lemma skip_remount_iff_mount_ns_witness :
  (forall status tr,
     parse_args sys_static [Opt_K; Opt_v] ["/bin/true"] []
     <> (Exit status MSG_REMOUNT, tr)) /\
  (forall l tr,
     parse_args sys_static [Opt_K] ["/bin/true"] [] <> (Ret l, tr)).
Proof.
  split.
  - apply (skip_remount_iff_mount_ns sys_static [Opt_K; Opt_v] ["/bin/true"]);
      reflexivity.
  - apply (skip_remount_iff_mount_ns sys_static [Opt_K] ["/bin/true"]);
      reflexivity.
Defined.

(** C5 as stated fails: [-b /a,/b -K] has a bind mount and none of [-C],
    [-P], [-v], and is refused by the check of bind mounts; with [-C /c]
    added it is still refused, now by the MS_PRIVATE check. *)
Lemma bind_with_chroot_still_refused :
  parse_args sys_static [Opt_b "/a,/b"; Opt_K] ["/bin/true"] []
  = (Exit 1 MSG_BIND,
     [Call (minijail_bind "/a" "/b" 0); Call minijail_skip_remount_private;
      Call minijail_forward_signals]) /\
  parse_args sys_static [Opt_b "/a,/b"; Opt_K; Opt_C "/c"] ["/bin/true"] []
  = (Exit 1 MSG_REMOUNT,
     [Call (minijail_bind "/a" "/b" 0); Call minijail_skip_remount_private;
      Call (minijail_enter_chroot "/c"); Call minijail_forward_signals]).
Proof. split; reflexivity. Qed.

(** C5, amended. Options with a bind mount ([-b]) and none of [-C], [-P],
    [-v]: [parse_args] never returns, and a run that reaches the check of
    bind mounts exits there with status 1 and the message of the check.
    With one of [-C], [-P], [-v] put anywhere among the options, the check
    of bind mounts is met: [parse_args] never exits with its message, and a
    run that reaches the check goes past it.  The other checks still
    apply. *)
Theorem bind_needs_chroot_pivot_or_mount_ns sys opts rest :
  has is_b opts = true ->
  (has is_C opts = false -> has is_P opts = false -> has is_v opts = false ->
     (forall l tr, parse_args sys opts rest [] <> (Ret l, tr)) /\
     (forall l tr,
        run_to_forward sys opts [] = (Ret l, tr) ->
        parse_args sys opts rest [] = (Exit 1 MSG_BIND, tr))) /\
  (forall before after o,
     opts = (before ++ after)%list ->
     is_C o || is_P o || is_v o = true ->
     (forall status tr,
        parse_args sys (before ++ o :: after) rest []
        <> (Exit status MSG_BIND, tr)) /\
     (forall l tr,
        run_to_forward sys (before ++ o :: after) [] = (Ret l, tr) ->
        run_to_binding sys (before ++ o :: after) [] = (Ret l, tr))).
Proof.
  intros Hb. split.
  - intros HC HP Hv. split.
    + intros l tr E.
      destruct (parse_args_ret _ _ _ _ E) as (_ & _ & (_ & b & _) & _).
      rewrite Hb, HC, HP, Hv in b. discriminate.
    + intros l tr E. destruct (run_to_forward_ret _ _ _ E) as [Hl _].
      destruct (collected_flags Hl) as (c & p & v & b & _).
      unfold parse_args, run_to_elftype, run_to_remount.
      assert (R : run_to_binding sys opts [] = (Exit 1 MSG_BIND, tr)).
      { unfold run_to_binding. erewrite bind_ret_eq by exact E.
        unfold step_binding. rewrite c, p, v, b, Hb, HC, HP, Hv. reflexivity. }
      now do 3 apply bind_exit_eq.
  - intros before after o -> Ho.
    assert (X : has is_C (before ++ o :: after)
                || has is_P (before ++ o :: after)
                || has is_v (before ++ o :: after) = true).
    { rewrite !has_insert.
      destruct (is_C o), (is_P o), (is_v o); try discriminate;
        simpl; rewrite ?orb_true_r; reflexivity. }
    split.
    + intros status tr. apply never_msg_run, bind_not_refused.
      rewrite X. apply andb_false_r.
    + intros l tr E. destruct (run_to_forward_ret _ _ _ E) as [Hl _].
      destruct (collected_flags Hl) as (c & p & v & b & _).
      unfold run_to_binding. erewrite bind_ret_eq by exact E.
      unfold step_binding. rewrite c, p, v, X, andb_false_r. reflexivity.
Qed.

Lemma bind_needs_chroot_pivot_or_mount_ns_witness :
  (forall l tr,
     parse_args sys_static [Opt_b "/a,/b"] ["/bin/true"] [] <> (Ret l, tr)) /\
  (forall status tr,
     parse_args sys_static [Opt_v; Opt_b "/a,/b"] ["/bin/true"] []
     <> (Exit status MSG_BIND, tr)).
Proof.
  split.
  - apply (bind_needs_chroot_pivot_or_mount_ns sys_static [Opt_b "/a,/b"]
             ["/bin/true"]); reflexivity.
  - apply (bind_needs_chroot_pivot_or_mount_ns sys_static [Opt_b "/a,/b"]
             ["/bin/true"] eq_refl) with (before := []) (after := [Opt_b "/a,/b"]);
      reflexivity.
Defined.

Lemma parse_opts_ret sys opts tr l tr' :
  parse_opts sys opts locals0 tr = (Ret l, tr') -> collected opts l.
Proof. intros E. exact (proj2 (parse_opts_sat sys opts locals0 _ E)). Qed.

Lemma parse_args_from_opts_exit sys opts rest tr status msg tr' :
  parse_opts sys opts locals0 tr = (Exit status msg, tr') ->
  parse_args sys opts rest tr = (Exit status msg, tr').
Proof.
  intros E. unfold parse_args, run_to_elftype, run_to_remount, run_to_binding,
    run_to_forward, run_to_idmaps, run_to_logging.
  now do 7 apply bind_exit_eq.
Qed.

(** C6. Options with both a chroot ([-C]) and a pivot root ([-P]): the loop
    over the options never completes, so [parse_args] never returns.  It
    is the second of the two that is refused, whichever it is: when the
    options before the first [-P] that follows a [-C] have been handled
    without an error, [parse_args] exits at that [-P] with status 1 and the
    message that names [-C]; and likewise for a [-C] that follows a [-P]. *)
Theorem chroot_and_pivot_root_rejected sys opts rest :
  has is_C opts = true -> has is_P opts = true ->
  (forall l tr, parse_opts sys opts locals0 [] <> (Ret l, tr)) /\
  (forall l tr, parse_args sys opts rest [] <> (Ret l, tr)) /\
  (forall before dir after l tr,
     opts = (before ++ Opt_P dir :: after)%list ->
     has is_C before = true ->
     parse_opts sys before locals0 [] = (Ret l, tr) ->
     parse_args sys opts rest [] = (Exit 1 MSG_PIVOT_CHROOT, tr)) /\
  (forall before dir after l tr,
     opts = (before ++ Opt_C dir :: after)%list ->
     has is_P before = true ->
     parse_opts sys before locals0 [] = (Ret l, tr) ->
     parse_args sys opts rest [] = (Exit 1 MSG_CHROOT_PIVOT, tr)).
Proof.
  intros HC HP. repeat split.
  - intros l tr E. apply parse_opts_ret, collected_flags in E.
    destruct E as (_ & _ & _ & _ & _ & _ & _ & _ & _ & cp).
    rewrite HC, HP in cp. discriminate.
  - intros l tr E.
    destruct (parse_args_ret _ _ _ _ E) as (_ & _ & (_ & _ & _ & cp) & _).
    rewrite HC, HP in cp. discriminate.
  - intros before dir after l tr -> Hb E.
    apply parse_args_from_opts_exit. rewrite parse_opts_app.
    erewrite bind_ret_eq by exact E. simpl.
    apply parse_opts_ret, collected_flags in E. destruct E as (c & _).
    unfold bind. rewrite c, Hb. reflexivity.
  - intros before dir after l tr -> Hb E.
    apply parse_args_from_opts_exit. rewrite parse_opts_app.
    erewrite bind_ret_eq by exact E. simpl.
    apply parse_opts_ret, collected_flags in E. destruct E as (_ & p & _).
    unfold bind. rewrite p, Hb. reflexivity.
Qed.

Lemma chroot_and_pivot_root_rejected_witness :
  parse_args sys_static [Opt_C "/a"; Opt_v; Opt_P "/b"] ["/bin/true"] []
  = (Exit 1 MSG_PIVOT_CHROOT,
     [Call (minijail_enter_chroot "/a"); Call minijail_namespace_vfs]) /\
  parse_args sys_static [Opt_P "/b"; Opt_C "/a"] ["/bin/true"] []
  = (Exit 1 MSG_CHROOT_PIVOT,
     [Call (minijail_enter_pivot_root "/b"); Call minijail_namespace_vfs]).
Proof.
  split.
  - apply (chroot_and_pivot_root_rejected sys_static
             [Opt_C "/a"; Opt_v; Opt_P "/b"] ["/bin/true"] eq_refl eq_refl)
      with (before := [Opt_C "/a"; Opt_v]) (dir := "/b") (after := [])
           (l := with_mount_ns true (with_chroot true locals0));
      reflexivity.
  - apply (chroot_and_pivot_root_rejected sys_static
             [Opt_P "/b"; Opt_C "/a"] ["/bin/true"] eq_refl eq_refl)
      with (before := [Opt_P "/b"]) (dir := "/a") (after := [])
           (l := with_pivot_root true locals0);
      reflexivity.
Defined.

Lemma none_runs_rejects evs : none_runs evs -> launch_strategy evs = Reject.
Proof.
  intros H. unfold launch_strategy.
  assert (X : existsb is_run_no_preload evs = false /\ existsb is_run evs = false).
  { induction H as [|e evs He _ [IH1 IH2]]; simpl; auto.
    rewrite IH1, IH2. unfold no_run in He.
    destruct (is_run e), (is_run_no_preload e); auto; discriminate. }
  destruct X as [-> ->]. reflexivity.
Qed.

Lemma run_to_elftype_none_runs sys opts rest tr o tr' :
  run_to_elftype sys opts rest tr = (o, tr') ->
  exists evs, tr' = (tr ++ evs)%list /\ none_runs evs.
Proof.
  intros E.
  refine (proj1 (@run_to_elftype_sat sys opts rest none_runs any_exit none_runs_nil
                   none_runs_app all_quiet_none_runs _ (fun _ _ _ => I)
                   (fun _ => I) (fun _ => I) (fun _ => I) _ _ _ E)).
  intros l. apply step_idmaps_sat; auto using none_runs_nil, none_runs_app.
  - intros e He. now repeat constructor.
  - intros; exact I.
Qed.

(** C2. A run of [parse_args] that gets as far as the check of the ELF
    type, for options that restrict capabilities ([-c]) without asking for
    ambient capabilities, with a target taken as statically linked (by
    [-T static] or by its file): [parse_args] exits there with status 1
    and the message of the check, and so does [main], which starts
    nothing. *)
Theorem static_target_with_caps_rejected sys opts rest l tr :
  run_to_elftype sys opts rest [] = (Ret l, tr) ->
  has is_c opts = true ->
  has is_ambient opts = false ->
  elftype l = ELFSTATIC ->
  parse_args sys opts rest [] = (Exit 1 MSG_STATIC_CAPS, tr) /\
  main sys opts rest [] = (Exit 1 MSG_STATIC_CAPS, tr) /\
  launch_strategy tr = Reject.
Proof.
  intros E Hc Ha Ht.
  assert (P : parse_args sys opts rest [] = (Exit 1 MSG_STATIC_CAPS, tr)).
  { unfold parse_args. erewrite bind_ret_eq by exact E.
    destruct (run_to_elftype_ret _ _ _ _ E) as (c & a & _).
    unfold step_static_caps. rewrite c, a, Hc, Ha, Ht. reflexivity. }
  repeat split; auto.
  - unfold main. now apply bind_exit_eq.
  - destruct (run_to_elftype_none_runs _ _ _ _ E) as (evs & -> & Hn).
    now apply none_runs_rejects.
Qed.

Lemma static_target_with_caps_rejected_witness :
  main sys_static [Opt_c "0x1"] ["/bin/true"] []
  = (Exit 1 MSG_STATIC_CAPS,
     [Call (minijail_use_caps 1); Call minijail_forward_signals;
      Call (minijail_get_original_path "/bin/true")]) /\
  launch_strategy
    [Call (minijail_use_caps 1); Call minijail_forward_signals;
     Call (minijail_get_original_path "/bin/true")] = Reject.
Proof.
  apply (@static_target_with_caps_rejected sys_static [Opt_c "0x1"]
           ["/bin/true"] (with_elftype ELFSTATIC (with_caps true locals0)));
    reflexivity.
Defined.

(** ** Numeric users and groups *)

Lemma set_user_numeric sys arg l tr d uid :
  strtod arg = (d, "") -> arg <> "" -> double_to_int d = Some uid ->
  set_user sys arg l tr
  = (Ret (with_uid (Int.to_id uid) l),
     (tr ++ [Call (minijail_change_uid (Int.to_id uid))])%list).
Proof.
  intros Hs Ha Hd. unfold set_user. rewrite Hs, Hd.
  destruct arg; [congruence|]. reflexivity.
Qed.

Lemma set_group_numeric sys arg l tr d gid :
  strtod arg = (d, "") -> arg <> "" -> double_to_int d = Some gid ->
  set_group sys arg l tr
  = (Ret (with_gid (Int.to_id gid) l),
     (tr ++ [Call (minijail_change_gid (Int.to_id gid))])%list).
Proof.
  intros Hs Ha Hd. unfold set_group. rewrite Hs, Hd.
  destruct arg; [congruence|]. reflexivity.
Qed.

(** C8 as stated fails: ["3000000000"] and ["2.5"] are both read in full
    by [strtod], so both are numeric users.  The value of the first is
    outside [int], its conversion is undefined and the uid is not
    3000000000; the second is taken as uid 2, its value without the
    fraction. *)
Lemma numeric_user_not_taken_directly :
  snd (strtod "3000000000") = "" /\
  double_to_int (fst (strtod "3000000000")) = None /\
  set_user sys_static "3000000000" locals0 []
  <> (Ret (with_uid 3000000000 locals0),
      [Call (minijail_change_uid 3000000000)]) /\
  snd (strtod "2.5") = "" /\
  set_user sys_static "2.5" locals0 []
  = (Ret (with_uid 2 locals0), [Call (minijail_change_uid 2)]).
Proof. vm_compute. repeat split; discriminate. Qed.

(** C8, amended. The user ["1000"] is taken as uid 1000 with the single
    event [minijail_change_uid 1000], so without any lookup.  In general,
    when [strtod] reads the whole of a non-empty argument and its value,
    without the fraction, is in the range of [int], the uid is that [int]
    converted to [uid_t], again with that single event. *)
Theorem numeric_user_skips_lookup sys l tr :
  set_user sys "1000" l tr
  = (Ret (with_uid 1000 l), (tr ++ [Call (minijail_change_uid 1000)])%list) /\
  (forall arg d uid,
     strtod arg = (d, "") -> arg <> "" -> double_to_int d = Some uid ->
     set_user sys arg l tr
     = (Ret (with_uid (Int.to_id uid) l),
        (tr ++ [Call (minijail_change_uid (Int.to_id uid))])%list)).
Proof.
  split.
  - apply (@set_user_numeric sys "1000" l tr
             (DFinite false 8796093022208000 (-43)) 1000);
      [vm_compute; reflexivity | discriminate | vm_compute; reflexivity].
  - intros. now apply set_user_numeric with (d := d).
Qed.

Lemma numeric_user_skips_lookup_witness :
  set_user sys_static "42" locals0 []
  = (Ret (with_uid 42 locals0), [Call (minijail_change_uid 42)]).
Proof.
  apply (proj2 (numeric_user_skips_lookup sys_static locals0 []) "42"
           (DFinite false 5910974510923776 (-47)) 42);
    [vm_compute; reflexivity | discriminate | vm_compute; reflexivity].
Defined.

(** C9. [strtod] reads floating constants: ["1e2"] and ["2.5"] are read in
    full, so they are numeric users and groups, taken without any lookup
    as the ids 100 and 2, their values without the fraction. *)
Theorem float_ids_are_numeric sys l tr :
  set_user sys "1e2" l tr
  = (Ret (with_uid 100 l), (tr ++ [Call (minijail_change_uid 100)])%list) /\
  set_user sys "2.5" l tr
  = (Ret (with_uid 2 l), (tr ++ [Call (minijail_change_uid 2)])%list) /\
  set_group sys "1e2" l tr
  = (Ret (with_gid 100 l), (tr ++ [Call (minijail_change_gid 100)])%list) /\
  set_group sys "2.5" l tr
  = (Ret (with_gid 2 l), (tr ++ [Call (minijail_change_gid 2)])%list).
Proof.
  assert (H1 : strtod "1e2" = (DFinite false 7036874417766400 (-46), ""))
    by (vm_compute; reflexivity).
  assert (H2 : strtod "2.5" = (DFinite false 5629499534213120 (-51), ""))
    by (vm_compute; reflexivity).
  split; [|split; [|split]].
  - apply (@set_user_numeric sys "1e2" l tr _ 100 H1);
      [discriminate | vm_compute; reflexivity].
  - apply (@set_user_numeric sys "2.5" l tr _ 2 H2);
      [discriminate | vm_compute; reflexivity].
  - apply (@set_group_numeric sys "1e2" l tr _ 100 H1);
      [discriminate | vm_compute; reflexivity].
  - apply (@set_group_numeric sys "2.5" l tr _ 2 H2);
      [discriminate | vm_compute; reflexivity].
Qed.

(** C10. An empty argument is accepted by [-B] and by [-c] and gives the
    mask 0; [-c] with it still sets [caps].  Either option is refused, with
    status 1, exactly when [strtoull] leaves something of the argument
    unread. *)
Theorem empty_mask_accepted sys l tr :
  skip_securebits "" tr
  = (Ret tt, (tr ++ [Call (minijail_skip_setting_securebits 0)])%list) /\
  parse_opt sys (Opt_c "") l tr
  = (Ret (with_caps true l), (tr ++ [Call (minijail_use_caps 0)])%list) /\
  (forall arg,
     (exists msg tr', use_caps arg tr = (Exit 1 msg, tr'))
     <-> snd (strtoull arg 16) <> "") /\
  (forall arg,
     (exists msg tr', skip_securebits arg tr = (Exit 1 msg, tr'))
     <-> snd (strtoull arg 16) <> "").
Proof.
  assert (U : forall arg,
             (exists msg tr', use_caps arg tr = (Exit 1 msg, tr'))
             <-> snd (strtoull arg 16) <> "").
  { intros arg. unfold use_caps. destruct (strtoull arg 16) as [v e]. simpl.
    destruct e; simpl; split.
    - intros (msg & tr' & E); discriminate.
    - congruence.
    - discriminate.
    - intros _; eexists; eexists; reflexivity. }
  assert (S : forall arg,
             (exists msg tr', skip_securebits arg tr = (Exit 1 msg, tr'))
             <-> snd (strtoull arg 16) <> "").
  { intros arg. unfold skip_securebits. destruct (strtoull arg 16) as [v e]. simpl.
    destruct e; simpl; split.
    - intros (msg & tr' & E); discriminate.
    - congruence.
    - discriminate.
    - intros _; eexists; eexists; reflexivity. }
  split; [reflexivity | split; [reflexivity | split; assumption]].
Qed.

(** ** Starting the target *)

(** C1 as stated fails: with [-c 0x1 --ambient] and a statically linked
    target, the target is not started through the preload library. *)
Lemma ambient_static_not_preload :
  launch_strategy
    (snd (main sys_static [Opt_c "0x1"; Opt_ambient] ["/bin/true"] []))
  <> PreloadExec.
Proof. vm_compute. discriminate. Qed.

(** C1, amended. With [-c 0x1 --ambient] and a target whose file is
    executable and statically linked, [main] is not refused: it starts the
    target by [minijail_run_no_preload], without the preload library, and
    waits for it. *)
Theorem ambient_static_runs_without_preload sys program args :
  let before :=
    [Call (minijail_use_caps 1); Call minijail_set_ambient_caps;
     Call minijail_forward_signals] in
  let started :=
    (before ++ [Call (minijail_get_original_path program);
                Call (minijail_run_no_preload program (program :: args))])%list in
  access_x_ok sys (original_path sys before program) = true ->
  get_elf_linkage sys (original_path sys before program) = ELFSTATIC ->
  setpgid_errno sys = None \/ setpgid_errno sys = Some EPERM ->
  main sys [Opt_c "0x1"; Opt_ambient] (program :: args) []
  = (Ret (jail_ret sys started minijail_wait),
     (started ++ [Call minijail_wait])%list) /\
  launch_strategy (started ++ [Call minijail_wait]) = DirectExec.
Proof.
  intros before started Ha Hl Hp. split; [|reflexivity].
  unfold main, parse_args, run_to_elftype, run_to_remount, run_to_binding,
    run_to_forward, run_to_idmaps, run_to_logging.
  unfold bind, parse_opts, parse_opt, use_caps.
  replace (strtoull "0x1" 16) with (1, "") by (vm_compute; reflexivity).
  cbn -[original_path access_x_ok get_elf_linkage setpgid_errno jail_ret].
  fold before. unfold step_elftype. cbn -[original_path access_x_ok get_elf_linkage setpgid_errno jail_ret].
  fold before. rewrite Ha, Hl.
  cbn -[original_path access_x_ok get_elf_linkage setpgid_errno jail_ret].
  destruct Hp as [-> | ->]; reflexivity.
Qed.

Lemma ambient_static_runs_without_preload_witness :
  launch_strategy
    (snd (main sys_static [Opt_c "0x1"; Opt_ambient] ["/bin/true"] []))
  = DirectExec.
Proof.
  destruct (@ambient_static_runs_without_preload sys_static "/bin/true" []
              eq_refl eq_refl (or_introl eq_refl)) as [E S].
  rewrite E. exact S.
Defined.

(** ** Id maps *)

Lemma length_append (a b : string) :
  String.length (a ++ b) = (String.length a + String.length b)%nat.
Proof. induction a as [|c a IH]; simpl; auto. Qed.

Lemma length_digits fuel : forall n acc,
  (String.length (digits fuel n acc) <= fuel + String.length acc)%nat.
Proof.
  induction fuel as [|fuel IH]; intros n acc; simpl; [lia|].
  destruct (n <? 10); simpl; [lia|].
  specialize (IH (n / 10) (String (digit_char (n mod 10)) acc)). simpl in IH. lia.
Qed.

Lemma length_fmt_d z : (String.length (fmt_d z) <= 11)%nat.
Proof.
  unfold fmt_d. destruct (z <? 0); simpl.
  - pose proof (length_digits 10 (- z) ""). simpl in *. lia.
  - pose proof (length_digits 10 z ""). simpl in *. lia.
Qed.

(** The buffer of [IDMAP_LEN] characters is always large enough. *)
Lemma build_idmap_ret id lowerid tr :
  build_idmap id lowerid tr
  = (Ret (fmt_d (Int.to_int id) ++ " " ++ fmt_d (Int.to_int lowerid) ++ " 1"),
     tr).
Proof.
  unfold build_idmap, strlen, IDMAP_LEN.
  set (s := fmt_d (Int.to_int id) ++ " " ++ fmt_d (Int.to_int lowerid) ++ " 1").
  assert (L : (String.length s <= 25)%nat).
  { unfold s. rewrite !length_append. simpl.
    pose proof (length_fmt_d (Int.to_int id)).
    pose proof (length_fmt_d (Int.to_int lowerid)). lia. }
  destruct (Z.of_nat (String.length s) <? 0) eqn:E1; [apply Z.ltb_lt in E1; lia|].
  destruct (32 <=? Z.of_nat (String.length s)) eqn:E2; [apply Z.leb_le in E2; lia|].
  reflexivity.
Qed.

Lemma to_int_small z : 0 <= z < 2 ^ 31 -> Int.to_int z = z.
Proof. intros H. unfold Int.to_int. rewrite Z.mod_small; lia. Qed.

Lemma sat_extends A (m : M A) tr o tr' :
  sat any_events any_exit m (fun _ => True) ->
  m tr = (o, tr') -> exists evs, tr' = (tr ++ evs)%list.
Proof.
  intros H E. destruct (H _ _ _ E) as [(evs & -> & _) _]. now exists evs.
Qed.

(** C3 as stated fails: [-U] asks for a user namespace, no uid map is
    given, and no uid map is set. *)
Lemma user_namespace_without_uidmap :
  let run := parse_args sys_static [Opt_U] ["/bin/true"] [] in
  (exists l, fst run = Ret l) /\
  In (Call minijail_namespace_user) (snd run) /\
  ~ (exists map, In (Call (minijail_uidmap map)) (snd run)).
Proof.
  vm_compute. split; [eexists; reflexivity|]. split; [auto|].
  intros (map & H). intuition discriminate.
Qed.

(** C3, amended. When the last [-m] among the options carries no map, the
    uid map set on the jail, right after the user and pid namespaces are
    asked for, is made of the uid chosen by [-u] (0 without [-u]), the real
    uid of the caller and the count 1, in decimal, for ids below 2^31. *)
Theorem default_uidmap sys opts l tr :
  run_to_logging sys opts [] = (Ret l, tr) ->
  last_uidmap opts None = Some None ->
  0 <= uid l < 2 ^ 31 ->
  0 <= getuid sys < 2 ^ 31 ->
  (exists o evs,
     run_to_idmaps sys opts [] =
     (o, (tr ++ [Call minijail_namespace_user; Call minijail_namespace_pids;
                 Call (minijail_uidmap
                         (fmt_d (uid l) ++ " " ++ fmt_d (getuid sys) ++ " 1"))]
             ++ evs)%list)) /\
  (has is_u opts = false -> uid l = 0).
Proof.
  intros E Hm Hu Hg.
  pose proof (run_to_logging_ret _ _ _ E) as Hl.
  destruct (collected_flags Hl) as (_ & _ & _ & _ & _ & _ & _ & m & u & _).
  split; [|exact u].
  rewrite Hm in m. unfold uidmap_request in m.
  destruct (set_uidmap l) eqn:Hs; [|discriminate].
  assert (Hn : uidmap l = None) by congruence. clear m.
  unfold run_to_idmaps. erewrite bind_ret_eq by exact E.
  unfold step_idmaps. rewrite Hs. cbn [orb].
  unfold set_ugid_mapping. rewrite Hn.
  set (gid_part := if set_gidmap l then _ else ret tt).
  assert (G : sat any_events any_exit gid_part (fun _ => True)).
  { unfold gid_part, build_idmap, has_cap_setgid.
    repeat (sat_step any_nil any_app); try exact I; intros; exact I. }
  unfold bind at 1 2 3 4 5 6. unfold call, emit. rewrite build_idmap_ret.
  rewrite !to_int_small by assumption.
  unfold call_int. rewrite <- !app_assoc. cbn [app].
  destruct (negb (0 =? _ )).
  - exists (Exit 1 ("Could not set uid map." ++ nl)), []. reflexivity.
  - cbn [ret]. destruct (gid_part _) as [o tr'] eqn:Eg.
    destruct (@sat_extends _ _ _ _ _ G Eg) as [evs ->].
    destruct o; rewrite <- app_assoc; eexists; exists evs; reflexivity.
Qed.

Lemma default_uidmap_witness :
  exists o evs,
    run_to_idmaps sys_static [Opt_m None] [] =
    (o, ([] ++ [Call minijail_namespace_user; Call minijail_namespace_pids;
                Call (minijail_uidmap "0 1000 1")] ++ evs)%list).
Proof.
  apply (@default_uidmap sys_static [Opt_m None]
           (with_uidmap None (with_set_uidmap true locals0)) []);
    [reflexivity | reflexivity | vm_compute; intuition discriminate
    | vm_compute; intuition discriminate].
Defined.

(** ** [setgroups] *)

Lemma main_setgroups sys opts rest :
  sat (setgroups_ok sys) any_exit (main sys opts rest) (fun _ => True).
Proof.
  pose proof (@setgroups_ok_nil sys) as Q_nil.
  pose proof (@setgroups_ok_app sys) as Q_app.
  unfold main. apply (sat_then Q_app).
  - eapply sat_weaken;
      [apply (@parse_args_sat sys opts rest (setgroups_ok sys) any_exit Q_nil
                Q_app (@setgroups_ok_quiet sys)
                (fun l => @step_idmaps_setgroups sys any_exit l (fun _ _ _ => I))
                (fun _ _ _ => I) (fun _ => I) (fun _ => I) (fun _ => I)
                (fun _ => I))
      | auto].
  - intros l.
    repeat (sat_step Q_nil Q_app);
      lazymatch goal with
      | |- setgroups_ok _ _ => apply setgroups_ok_one; reflexivity
      | |- any_exit _ _ => exact I
      | |- True => exact I
      | |- forall _, _ => intros; exact I
      | _ => idtac
      end.
Qed.

(** C7. In a run of [main] that sets a gid map: when the process does not
    hold [CAP_SETGID], the event just before the gid map is the request to
    disable [setgroups]; when it holds the capability, no such request is
    made in the whole run. *)
Theorem setgroups_disabled_without_cap_setgid sys opts rest o tr map :
  main sys opts rest [] = (o, tr) ->
  In (Call (minijail_gidmap map)) tr ->
  (holds_cap_setgid sys = false ->
   exists before after,
     tr = (before
           ++ [Call minijail_namespace_user_disable_setgroups;
               Call (minijail_gidmap map)]
           ++ after)%list) /\
  (holds_cap_setgid sys = true ->
   ~ In (Call minijail_namespace_user_disable_setgroups) tr).
Proof.
  intros E Hin.
  destruct (main_setgroups sys opts rest _ E) as [(evs & -> & [Hyes Hno]) _].
  simpl in *. split.
  - intros H. exact (Hno H map Hin).
  - intros H Hd. specialize (Hyes H). rewrite Forall_forall in Hyes.
    specialize (Hyes _ Hd). discriminate.
Qed.

Lemma setgroups_disabled_without_cap_setgid_witness :
  exists before after,
    snd (main sys_static [Opt_M None] ["/bin/true"] [])
    = (before
       ++ [Call minijail_namespace_user_disable_setgroups;
           Call (minijail_gidmap "0 1000 1")]
       ++ after)%list.
Proof.
  apply (proj1 (@setgroups_disabled_without_cap_setgid sys_static [Opt_M None]
                  ["/bin/true"]
                  (fst (main sys_static [Opt_M None] ["/bin/true"] []))
                  (snd (main sys_static [Opt_M None] ["/bin/true"] []))
                  "0 1000 1" eq_refl
                  (or_intror (or_intror (or_intror (or_introl eq_refl)))))).
  reflexivity.
Defined.

(** * Further properties *)

Import Coverage.

(** ** The loop, again *)

Lemma from_loop_nil : from_loop [].
Proof. constructor. Qed.

Lemma from_loop_app a b : from_loop a -> from_loop b -> from_loop (a ++ b)%list.
Proof. intros; apply Forall_app; auto. Qed.

Lemma eqb_static_dynamic s :
  String.eqb s "static" = false -> String.eqb s "dynamic" = true ->
  elftype_of s = ELFDYNAMIC.
Proof. intros H _. unfold elftype_of. now rewrite H. Qed.

Ltac loop_side :=
  lazymatch goal with
  | |- from_loop _ => repeat constructor
  | |- any_exit _ _ => exact I
  | |- True => exact I
  | |- forall _, _ => intros; exact I
  | _ => idtac
  end.

Lemma parse_opt_effect sys o l :
  sat from_loop any_exit (parse_opt sys o l) (loop_effect [o] l).
Proof.
  destruct o; unfold parse_opt, set_user, set_group, skip_securebits, use_caps,
    add_binding, add_rlimit, add_mount;
  repeat (sat_step from_loop_nil from_loop_app); loop_side.
  all: unfold loop_effect, summary_of, after_opts, gidmap_request, has; simpl.
  all: try (destruct l; simpl in *; subst; split;
            [ rewrite ?orb_false_r, ?andb_true_r, ?orb_true_r, ?andb_false_r; reflexivity
            | auto ]).
  all: unfold elftype_of;
    repeat match goal with
           | H : String.eqb _ _ = _ |- _ => rewrite H
           end;
    try match goal with
        | H : String.eqb _ "syslog" = true |- _ =>
            apply String.eqb_eq in H; subst
        end;
    try (destruct (Z.eqb_spec (seccomp l) (-1)), (Z.eqb_spec (seccomp l) 1),
           (Z.eqb_spec (seccomp l) 2); simpl in *; try discriminate; try lia);
    rewrite ?orb_false_r, ?andb_true_r, ?orb_true_r;
    try (split; [reflexivity | auto]).
Qed.

Lemma after_opts_cons o opts s :
  after_opts (o :: opts) s = after_opts opts (after_opts [o] s).
Proof.
  unfold after_opts, has. simpl. rewrite ?orb_false_r, ?andb_true_r.
  f_equal; rewrite ?orb_assoc, ?negb_orb, ?andb_assoc; try reflexivity;
    destruct o; reflexivity.
Qed.

Lemma parse_opts_effect sys opts : forall l,
  sat from_loop any_exit (parse_opts sys opts l) (loop_effect opts l).
Proof.
  induction opts as [|o opts IH]; intro l; simpl.
  - apply sat_ret; [exact from_loop_nil|]. split; auto.
    unfold after_opts, summary_of, has. simpl.
    now rewrite ?orb_false_r, ?andb_true_r.
  - eapply (sat_bind from_loop_app); [apply parse_opt_effect|].
    intros l1 [E1 I1]. eapply sat_weaken; [apply IH|].
    intros l2 [E2 I2]. split; auto.
    now rewrite after_opts_cons, <- E1.
Qed.

(** ** Where events come from *)

Lemma sat_both A (Q Q' : list event -> Prop) (Px Px' : Z -> string -> Prop)
    (m : M A) (P1 P2 : A -> Prop) :
  sat Q Px m P1 -> sat Q' Px' m P2 -> sat Q Px m (fun a => P1 a /\ P2 a).
Proof.
  intros H1 H2 tr o tr' E.
  destruct (H1 _ _ _ E) as [He Ho1]. destruct (H2 _ _ _ E) as [_ Ho2].
  split; [exact He|]. destruct o; auto.
Qed.

Lemma from_loop_justified sys opts rest evs :
  from_loop evs -> all_justified sys opts rest evs.
Proof.
  apply Forall_impl. intros e. destruct e as [c| | | | | |]; simpl; auto;
    try discriminate. destruct c; simpl; auto; discriminate.
Qed.

Lemma last_uidmap_none opts : forall acc,
  has is_m opts = false -> last_uidmap opts acc = acc.
Proof.
  induction opts as [|o opts IH]; intros acc H; simpl in *; auto.
  destruct o; simpl in *; auto; discriminate.
Qed.

Lemma last_gidmap_none opts : forall acc,
  has is_M opts = false -> last_gidmap opts acc = acc.
Proof.
  induction opts as [|o opts IH]; intros acc H; simpl in *; auto.
  destruct o; simpl in *; auto; discriminate.
Qed.

Lemma last_gidmap_some opts : forall acc,
  has is_M opts = true -> last_gidmap opts acc <> None.
Proof.
  induction opts as [|o opts IH]; intros acc H; simpl in *; [discriminate|].
  destruct o; simpl in *; auto.
  destruct (has is_M opts) eqn:E; auto.
  rewrite last_gidmap_none by exact E. discriminate.
Qed.

Lemma last_elftype_none opts : forall acc,
  has is_T opts = false -> last_elftype opts acc = acc.
Proof.
  induction opts as [|o opts IH]; intros acc H; simpl in *; auto.
  destruct o; simpl in *; auto; discriminate.
Qed.

Lemma last_elftype_some opts : forall acc,
  has is_T opts = true -> last_elftype opts acc <> ELFERROR.
Proof.
  induction opts as [|o opts IH]; intros acc H; simpl in *; [discriminate|].
  destruct o; simpl in *; auto.
  destruct (has is_T opts) eqn:E; auto.
  rewrite last_elftype_none by exact E. unfold elftype_of.
  destruct (String.eqb optarg "static"); discriminate.
Qed.

Lemma gathered_facts opts l :
  gathered opts l ->
  forward l = negb (has is_z opts) /\
  exit_immediately l = has is_i opts /\
  inherit_suppl_gids l = has is_G opts /\
  keep_suppl_gids l = has is_y opts /\
  (seccomp l =? 1) = has is_s opts /\
  (seccomp l =? 2) = has is_S opts /\
  use_seccomp_filter l = has is_S opts /\
  filter_path l = last_filter opts None /\
  gidmap_request l = last_gidmap opts None /\
  elftype l = last_elftype opts ELFERROR /\
  log_to_stderr l = last_logging opts false /\
  has is_G opts && has is_y opts = false.
Proof.
  intros [_ [E I]]. unfold summary_of, after_opts in E. simpl in E.
  injection E as e1 e2 e3 e4 e5 e6 e7 e8 e9 e10 e11.
  repeat split; auto. rewrite <- e3, <- e4. auto.
Qed.

Lemma step_program_head (Q : list event -> Prop) rest :
  Q [] -> (forall a b, Q a -> Q b -> Q (a ++ b)%list) -> Q [Print_usage] ->
  sat Q any_exit (step_program rest) (fun p => hd_error rest = Some p).
Proof.
  intros Q_nil Q_app Q_usage. unfold step_program.
  destruct rest as [|program args].
  - apply (sat_then Q_app); [apply sat_emit; [exact Q_usage | exact I]|].
    intros _. apply sat_die; [exact Q_nil | exact I].
  - apply sat_ret; [exact Q_nil | reflexivity].
Qed.

Section Provenance.

Variable sys : system.
Variable opts : list opt.
Variable rest : list string.

Let J := all_justified sys opts rest.

Lemma J_nil : J [].
Proof. constructor. Qed.

Lemma J_app a b : J a -> J b -> J (a ++ b)%list.
Proof. intros; apply Forall_app; auto. Qed.

Lemma J_one e : justified sys opts rest e -> J [e].
Proof. intros; repeat constructor; auto. Qed.

Lemma J_loop : sat J any_exit (parse_opts sys opts locals0) (gathered opts).
Proof.
  eapply sat_weaken.
  - eapply sat_both.
    + eapply sat_weaken_all; [apply parse_opts_effect | | | ].
      * apply from_loop_justified.
      * intros; exact I.
      * intros l H; exact H.
    + apply parse_opts_sat.
  - intros l [H1 H2]. split; auto.
Qed.

Lemma J_logging : sat J any_exit (run_to_logging sys opts) (gathered opts).
Proof.
  unfold run_to_logging. eapply (sat_bind J_app); [apply J_loop|].
  intros l Hl. apply sat_keep; auto using J_nil, J_app.
  destruct (gathered_facts Hl) as (_ & _ & _ & _ & _ & _ & _ & _ & _ & _ & g & _).
  unfold step_logging. destruct (log_to_stderr l); [|apply sat_ret; auto using J_nil].
  repeat (sat_step J_nil J_app); try exact I; try (intros; exact I);
    apply J_one; simpl; auto.
Qed.

Lemma J_step_idmaps l :
  gathered opts l -> sat J any_exit (step_idmaps sys l) (fun _ => True).
Proof.
  intros Hl.
  destruct (gathered_facts Hl) as (_ & _ & _ & _ & _ & _ & _ & _ & g & _).
  destruct Hl as [Hc _].
  destruct (collected_flags Hc) as (_ & _ & _ & _ & _ & _ & _ & u & _).
  unfold uidmap_request in u. unfold gidmap_request in g.
  assert (Ju : forall m, set_uidmap l = true ->
                 (forall m', uidmap l = Some m' -> m = m') ->
                 J [Call (minijail_uidmap m)]).
  { intros m Hs Hm. apply J_one. simpl. rewrite Hs in u.
    exists (uidmap l). split; [now rewrite <- u|]. exact Hm. }
  assert (Jg : forall m, set_gidmap l = true ->
                 (forall m', gidmap l = Some m' -> m = m') ->
                 J [Call (minijail_gidmap m)]).
  { intros m Hs Hm. apply J_one. simpl. rewrite Hs in g.
    exists (gidmap l). split; [now rewrite <- g|]. exact Hm. }
  assert (Jd : set_gidmap l = true ->
               J [Call minijail_namespace_user_disable_setgroups]).
  { intros Hs. apply J_one. simpl. rewrite Hs in g.
    destruct (has is_M opts) eqn:E; auto.
    rewrite last_gidmap_none in g by exact E. discriminate. }
  unfold step_idmaps, set_ugid_mapping, has_cap_setgid.
  destruct (set_uidmap l) eqn:Su, (set_gidmap l) eqn:Sg; cbn [orb];
    try (apply sat_ret; auto using J_nil);
    destruct (uidmap l) as [mu|] eqn:Mu, (gidmap l) as [mg|] eqn:Mg;
    cbv iota beta;
    repeat (lazymatch goal with
            | |- sat _ _ (bind (ret ?a) ?k) _ =>
                change (bind (ret a) k) with (k a); cbv beta
            | |- sat _ _ (bind (build_idmap _ _) _) _ =>
                eapply (sat_bind J_app);
                [ eapply (@sat_weaken _ _ _ _ (fun _ => True));
                  [unfold build_idmap; repeat (sat_step J_nil J_app); exact I
                  | intros; exact I]
                | intros ? _ ]
            | _ => sat_step J_nil J_app
            end);
    try exact I; try (intros; exact I);
    try (apply J_one; exact I);
    try (apply Ju; [reflexivity | congruence]);
    try (apply Jg; [reflexivity | congruence]);
    try (apply Jd; reflexivity).
Qed.

Lemma J_idmaps : sat J any_exit (run_to_idmaps sys opts) (gathered opts).
Proof.
  unfold run_to_idmaps. eapply (sat_bind J_app); [apply J_logging|].
  intros l Hl. apply sat_keep; auto using J_nil, J_app, J_step_idmaps.
Qed.

Lemma J_forward : sat J any_exit (run_to_forward sys opts) (gathered opts).
Proof.
  unfold run_to_forward. eapply (sat_bind J_app); [apply J_idmaps|].
  intros l Hl. destruct (gathered_facts Hl) as (f & _).
  apply (sat_then J_app).
  - unfold step_ambient. eapply sat_weaken;
      [apply sat_check; [exact J_nil | intros; exact I] | auto].
  - intros _. apply sat_keep; auto using J_nil, J_app.
    unfold step_forward. destruct (forward l); [|apply sat_ret; auto using J_nil].
    apply sat_emit; auto. apply J_one. simpl.
    now destruct (has is_z opts).
Qed.

Lemma J_remount :
  sat J any_exit (run_to_remount sys opts)
    (fun l => gathered opts l /\ accepted opts).
Proof.
  eapply sat_weaken.
  - eapply sat_both with (P1 := gathered opts).
    + unfold run_to_remount, run_to_binding.
      eapply (sat_bind J_app) with (Pa := gathered opts).
      * eapply (sat_bind J_app); [apply J_forward|].
        intros l Hl. apply sat_keep; auto using J_nil, J_app.
        unfold step_binding. eapply sat_weaken;
          [apply sat_check; [exact J_nil | intros; exact I] | auto].
      * intros l Hl. apply sat_keep; auto using J_nil, J_app.
        unfold step_remount. eapply sat_weaken;
          [apply sat_check; [exact J_nil | intros; exact I] | auto].
    + apply (@run_to_remount_sat sys opts any_events any_exit any_nil any_app
               (fun _ _ => I) (any_idmaps sys) (fun _ _ _ => I)
               (fun _ => I) (fun _ => I) (fun _ => I)).
  - intros l [H1 [_ H2]]. auto.
Qed.

Lemma J_step_elftype program l :
  hd_error rest = Some program ->
  gathered opts l ->
  sat J any_exit (step_elftype sys program l)
    (fun l' => exit_immediately l' = has is_i opts /\
               (has is_T opts = true -> elftype l' = last_elftype opts ELFERROR)).
Proof.
  intros Hp Hl.
  destruct (gathered_facts Hl) as (_ & i & _ & _ & _ & _ & _ & _ & _ & t & _).
  unfold step_elftype. destruct (ElfType_eqb (elftype l) ELFERROR) eqn:E.
  - assert (T : has is_T opts = false).
    { destruct (has is_T opts) eqn:HT; auto. exfalso.
      apply (@last_elftype_some opts ELFERROR HT). rewrite <- t.
      destruct (elftype l); auto; discriminate. }
    apply (@sat_reading J any_exit _
             (fun tr0 =>
                emit (Call (minijail_get_original_path program)) ;;;
                if negb (access_x_ok sys (original_path sys tr0 program))
                then die 1 ("Target program '" ++ program
                              ++ "' is not accessible." ++ nl)
                else ret (with_elftype
                            (get_elf_linkage sys (original_path sys tr0 program)) l))).
    intros tr0. repeat (sat_step J_nil J_app); try exact I.
    + apply J_one. simpl. auto.
    + destruct l; simpl in *. split; [auto | rewrite T; discriminate].
  - apply sat_ret; [exact J_nil|]. auto.
Qed.

Lemma J_parse_args :
  sat J any_exit (parse_args sys opts rest)
    (fun l => exit_immediately l = has is_i opts /\
              (has is_T opts = true -> elftype l = last_elftype opts ELFERROR) /\
              accepted opts /\ rest <> []).
Proof.
  unfold parse_args, run_to_elftype.
  eapply (sat_bind J_app)
    with (Pa := fun l =>
                  exit_immediately l = has is_i opts /\
                  (has is_T opts = true ->
                   elftype l = last_elftype opts ELFERROR) /\
                  accepted opts /\ rest <> []).
  - eapply (sat_bind J_app); [apply J_remount|].
    intros l [Hl Ha].
    destruct (gathered_facts Hl) as (_ & _ & _ & _ & _ & _ & u & p & _).
    apply (sat_then J_app).
    + unfold step_seccomp_filters. destruct (use_seccomp_filter l);
        [|apply sat_ret; auto using J_nil].
      apply sat_emit; auto. apply J_one. simpl. auto.
    + intros _. eapply (sat_bind J_app).
      * apply step_program_head; auto using J_nil, J_app. apply J_one. exact I.
      * intros program Hp. cbv beta in Hp.
        eapply sat_weaken; [apply (J_step_elftype Hp Hl)|].
        intros l' [H1 H2]. refine (conj H1 (conj H2 (conj Ha _))).
        intros R. rewrite R in Hp. discriminate.
  - intros l Hl. apply sat_keep; auto using J_nil, J_app.
    unfold step_static_caps. eapply sat_weaken;
      [apply sat_check; [exact J_nil | intros; exact I] | auto].
Qed.

End Provenance.

Lemma main_justified sys opts rest :
  sat (all_justified sys opts rest) any_exit (main sys opts rest)
    (fun status => has is_i opts = true -> status = 0).
Proof.
  pose proof (@J_app sys opts rest) as Q_app.
  pose proof (@J_parse_args sys opts rest) as P.
  unfold main. eapply (sat_bind Q_app); [exact P|].
  intros l (Hi & _ & _ & Hr). clear P.
  destruct rest as [|argv0 args]; [congruence|].
  pose proof (@J_nil sys opts (argv0 :: args)) as Q_nil.
  pose proof (@J_one sys opts (argv0 :: args)) as Q_one.
  apply (sat_then Q_app).
  - repeat (sat_step Q_nil Q_app); exact I.
  - intros _. apply (sat_then Q_app).
    + repeat (sat_step Q_nil Q_app); try exact I; apply Q_one; simpl;
        repeat split; auto. now apply negb_false_iff.
    + intros _. rewrite Hi. destruct (has is_i opts) eqn:Ei.
      * repeat (sat_step Q_nil Q_app); try exact I; auto.
      * apply sat_call_int; [apply Q_one; exact Ei | discriminate].
Qed.

(** ** More on the checks of [parse_args] *)

Lemma run_to_idmaps_ret sys opts tr l tr' :
  run_to_idmaps sys opts tr = (Ret l, tr') -> collected opts l.
Proof.
  intros E.
  exact (proj2 (@run_to_idmaps_sat sys opts any_events any_exit any_nil any_app
                  (fun _ _ => I) (any_idmaps sys) (fun _ _ _ => I) _ _ _ E)).
Qed.

Lemma ambient_not_refused sys opts rest :
  has is_ambient opts && negb (has is_c opts) = false ->
  sat any_events (never_msg MSG_AMBIENT) (parse_args sys opts rest)
    (fun _ => True).
Proof.
  intros H.
  assert (Hin : In MSG_AMBIENT check_msgs) by (simpl; auto).
  eapply sat_weaken;
    [apply (@parse_args_sat sys opts rest any_events (never_msg MSG_AMBIENT)
              any_nil any_app (fun _ _ => I)
              (fun l => never_msg_idmaps sys l Hin) (never_msg_other Hin))
    | auto].
  - rewrite H. discriminate.
  - intros _. unfold never_msg, MSG_BIND, MSG_AMBIENT. simpl. discriminate.
  - intros _. unfold never_msg, MSG_REMOUNT, MSG_AMBIENT. simpl. discriminate.
  - intros _. unfold never_msg, MSG_STATIC_CAPS, MSG_AMBIENT. simpl. discriminate.
Qed.

(** X1. Ambient capabilities ([--ambient]) need [-c]: without it
    [parse_args] never returns, and a run that gets past the id maps exits
    with status 1 and the message of this check; with it [parse_args] never
    exits with that message. *)
Theorem ambient_needs_caps sys opts rest :
  has is_ambient opts = true ->
  (has is_c opts = false ->
     (forall l tr, parse_args sys opts rest [] <> (Ret l, tr)) /\
     (forall l tr,
        run_to_idmaps sys opts [] = (Ret l, tr) ->
        parse_args sys opts rest [] = (Exit 1 MSG_AMBIENT, tr))) /\
  (has is_c opts = true ->
     forall status tr,
       parse_args sys opts rest [] <> (Exit status MSG_AMBIENT, tr)).
Proof.
  intros Ha. split; intros Hc.
  - split.
    + intros l tr E.
      destruct (parse_args_ret _ _ _ _ E) as (_ & _ & (a & _) & _).
      rewrite Ha, Hc in a. discriminate.
    + intros l tr E. pose proof (run_to_idmaps_ret _ _ _ E) as Hl.
      destruct (collected_flags Hl) as (_ & _ & _ & _ & _ & c & a & _).
      unfold parse_args, run_to_elftype, run_to_remount, run_to_binding.
      assert (R : run_to_forward sys opts [] = (Exit 1 MSG_AMBIENT, tr)).
      { unfold run_to_forward. erewrite bind_ret_eq by exact E.
        unfold step_ambient. rewrite c, a, Ha, Hc. reflexivity. }
      now do 4 apply bind_exit_eq.
  - intros status tr. apply never_msg_run, ambient_not_refused.
    now rewrite Hc, andb_false_r.
Qed.

Lemma ambient_needs_caps_witness :
  (forall l tr, parse_args sys_static [Opt_ambient] ["/bin/true"] [] <> (Ret l, tr)) /\
  (forall status tr,
     parse_args sys_static [Opt_ambient; Opt_c "1"] ["/bin/true"] []
     <> (Exit status MSG_AMBIENT, tr)).
Proof.
  split.
  - apply (@ambient_needs_caps sys_static [Opt_ambient] ["/bin/true"]); reflexivity.
  - apply (@ambient_needs_caps sys_static [Opt_ambient; Opt_c "1"] ["/bin/true"]);
      reflexivity.
Defined.

Lemma parse_opts_gathered sys opts tr l tr' :
  parse_opts sys opts locals0 tr = (Ret l, tr') -> gathered opts l.
Proof.
  intros E. exact (proj2 (@J_loop sys opts [] _ _ _ E)).
Qed.

(** X2. Inheriting the supplementary groups ([-G]) and keeping them ([-y])
    exclude each other: with both among the options the loop never
    completes, and the second of the two is refused with status 1 when the
    options before it were handled without error, whichever comes first. *)
Theorem inherit_and_keep_groups_rejected sys opts rest :
  has is_G opts = true -> has is_y opts = true ->
  (forall l tr, parse_opts sys opts locals0 [] <> (Ret l, tr)) /\
  (forall before after l tr,
     opts = (before ++ Opt_y :: after)%list ->
     has is_G before = true ->
     parse_opts sys before locals0 [] = (Ret l, tr) ->
     parse_args sys opts rest [] = (Exit 1 MSG_GROUPS, tr)) /\
  (forall before after l tr,
     opts = (before ++ Opt_G :: after)%list ->
     has is_y before = true ->
     parse_opts sys before locals0 [] = (Ret l, tr) ->
     parse_args sys opts rest [] = (Exit 1 MSG_GROUPS, tr)).
Proof.
  intros HG Hy. repeat split.
  - intros l tr E. apply parse_opts_gathered, gathered_facts in E.
    destruct E as (_ & _ & _ & _ & _ & _ & _ & _ & _ & _ & _ & gy).
    rewrite HG, Hy in gy. discriminate.
  - intros before after l tr -> Hb E.
    apply parse_args_from_opts_exit. rewrite parse_opts_app.
    erewrite bind_ret_eq by exact E. simpl.
    apply parse_opts_gathered, gathered_facts in E.
    destruct E as (_ & _ & g & _).
    unfold bind. rewrite g, Hb. reflexivity.
  - intros before after l tr -> Hb E.
    apply parse_args_from_opts_exit. rewrite parse_opts_app.
    erewrite bind_ret_eq by exact E. simpl.
    apply parse_opts_gathered, gathered_facts in E.
    destruct E as (_ & _ & _ & y & _).
    unfold bind. rewrite y, Hb. reflexivity.
Qed.

Lemma inherit_and_keep_groups_rejected_witness :
  parse_args sys_static [Opt_G; Opt_n; Opt_y] ["/bin/true"] []
  = (Exit 1 MSG_GROUPS,
     [Call minijail_inherit_usergroups; Call minijail_no_new_privs]).
Proof.
  apply (proj1 (proj2 (@inherit_and_keep_groups_rejected sys_static
                         [Opt_G; Opt_n; Opt_y] ["/bin/true"] eq_refl eq_refl)))
    with (before := [Opt_G; Opt_n]) (after := [])
         (l := with_inherit_suppl_gids true locals0);
    reflexivity.
Defined.

(** X3. Seccomp mode 1 ([-s]) and a seccomp filter ([-S]) exclude each
    other in either order: with both among the options the loop never
    completes, and the second of the two is refused with status 1 when the
    options before it were handled without error. *)
Theorem seccomp_modes_exclusive sys opts rest :
  has is_s opts = true -> has is_S opts = true ->
  (forall l tr, parse_opts sys opts locals0 [] <> (Ret l, tr)) /\
  (forall before file after l tr,
     opts = (before ++ Opt_S file :: after)%list ->
     has is_s before = true ->
     parse_opts sys before locals0 [] = (Ret l, tr) ->
     parse_args sys opts rest [] = (Exit 1 MSG_SECCOMP, tr)) /\
  (forall before after l tr,
     opts = (before ++ Opt_s :: after)%list ->
     has is_S before = true ->
     parse_opts sys before locals0 [] = (Ret l, tr) ->
     parse_args sys opts rest [] = (Exit 1 MSG_SECCOMP, tr)).
Proof.
  intros Hs HS. repeat split.
  - intros l tr E. apply parse_opts_gathered, gathered_facts in E.
    destruct E as (_ & _ & _ & _ & m1 & m2 & _).
    rewrite Hs in m1. rewrite HS in m2.
    apply Z.eqb_eq in m1. apply Z.eqb_eq in m2. lia.
  - intros before file after l tr -> Hb E.
    apply parse_args_from_opts_exit. rewrite parse_opts_app.
    erewrite bind_ret_eq by exact E. simpl.
    apply parse_opts_gathered, gathered_facts in E.
    destruct E as (_ & _ & _ & _ & m1 & _).
    rewrite Hb in m1. apply Z.eqb_eq in m1.
    unfold bind. rewrite m1. reflexivity.
  - intros before after l tr -> Hb E.
    apply parse_args_from_opts_exit. rewrite parse_opts_app.
    erewrite bind_ret_eq by exact E. simpl.
    apply parse_opts_gathered, gathered_facts in E.
    destruct E as (_ & _ & _ & _ & _ & m2 & _).
    rewrite Hb in m2. apply Z.eqb_eq in m2.
    unfold bind. rewrite m2. reflexivity.
Qed.

Lemma seccomp_modes_exclusive_witness :
  parse_args sys_static [Opt_S "/f"; Opt_s] ["/bin/true"] []
  = (Exit 1 MSG_SECCOMP, [Call minijail_use_seccomp_filter]).
Proof.
  apply (proj2 (proj2 (@seccomp_modes_exclusive sys_static
                         [Opt_S "/f"; Opt_s] ["/bin/true"] eq_refl eq_refl)))
    with (before := [Opt_S "/f"]) (after := [])
         (l := with_use_seccomp_filter true
                 (with_filter_path (Some "/f") (with_seccomp 2 locals0)));
    reflexivity.
Defined.

(** ** What a run never does *)

Lemma main_events sys opts rest o tr :
  main sys opts rest [] = (o, tr) ->
  Forall (justified sys opts rest) tr /\
  (has is_i opts = true -> forall status, o = Ret status -> status = 0).
Proof.
  intros E. destruct (main_justified sys opts rest _ E) as [(evs & -> & H) P].
  split; [exact H|]. intros Hi status ->. now apply P.
Qed.

Lemma event_justified sys opts rest o tr e :
  main sys opts rest [] = (o, tr) -> In e tr -> justified sys opts rest e.
Proof.
  intros E Hin. destruct (@main_events _ _ _ _ _ E) as [H _].
  rewrite Forall_forall in H. now apply H.
Qed.

(** X7. Without [-m] no uid map is ever set on the jail, and without [-M]
    no gid map is set and [setgroups] is never disabled, whatever else the
    options ask for. *)
Theorem no_map_without_map_option sys opts rest o tr :
  main sys opts rest [] = (o, tr) ->
  (has is_m opts = false ->
   forall map, ~ In (Call (minijail_uidmap map)) tr) /\
  (has is_M opts = false ->
   (forall map, ~ In (Call (minijail_gidmap map)) tr) /\
   ~ In (Call minijail_namespace_user_disable_setgroups) tr).
Proof.
  intros E. split; [intros H map Hin | intros H; split; [intros map Hin | intros Hin]].
  - destruct (@event_justified _ _ _ _ _ _ E Hin) as (r & Hr & _).
    rewrite last_uidmap_none in Hr by exact H. discriminate.
  - destruct (@event_justified _ _ _ _ _ _ E Hin) as (r & Hr & _).
    rewrite last_gidmap_none in Hr by exact H. discriminate.
  - pose proof (@event_justified _ _ _ _ _ _ E Hin) as J. simpl in J. congruence.
Qed.

Lemma no_map_without_map_option_witness :
  has is_m [Opt_U; Opt_M None] = false /\
  (forall map,
     ~ In (Call (minijail_uidmap map))
          (snd (main sys_static [Opt_U; Opt_M None] ["/bin/true"] []))).
Proof.
  split; [reflexivity|].
  apply (proj1 (@no_map_without_map_option sys_static [Opt_U; Opt_M None]
                  ["/bin/true"]
                  (fst (main sys_static [Opt_U; Opt_M None] ["/bin/true"] []))
                  (snd (main sys_static [Opt_U; Opt_M None] ["/bin/true"] []))
                  eq_refl)).
  reflexivity.
Defined.

Lemma last_elftype_last before optarg after acc :
  has is_T after = false ->
  last_elftype (before ++ Opt_T optarg :: after) acc = elftype_of optarg.
Proof.
  intros H. revert acc. induction before as [|o before IH]; intros acc; simpl.
  - now apply last_elftype_none.
  - destruct o; apply IH.
Qed.

(** X8. With [-T] among the options the target file is never looked at:
    [minijail_get_original_path] is never called, and when [parse_args]
    returns the ELF type is the one named by the last [-T]. *)
Theorem elf_type_override sys before optarg after rest o tr :
  has is_T after = false ->
  main sys (before ++ Opt_T optarg :: after) rest [] = (o, tr) ->
  (forall program, ~ In (Call (minijail_get_original_path program)) tr) /\
  (forall l tr',
     parse_args sys (before ++ Opt_T optarg :: after) rest [] = (Ret l, tr') ->
     elftype l = if String.eqb optarg "static" then ELFSTATIC else ELFDYNAMIC).
Proof.
  intros Ha E.
  assert (T : has is_T (before ++ Opt_T optarg :: after) = true).
  { rewrite has_insert. reflexivity. }
  split.
  - intros program Hin. destruct (@event_justified _ _ _ _ _ _ E Hin) as [J _].
    congruence.
  - intros l tr' P.
    destruct (@J_parse_args sys (before ++ Opt_T optarg :: after) rest _ _ _ P)
      as [_ (_ & t & _)].
    rewrite (t T). now apply last_elftype_last.
Qed.

Lemma elf_type_override_witness :
  has is_T [Opt_n] = false /\
  (forall program,
     ~ In (Call (minijail_get_original_path program))
          (snd (main sys_static [Opt_T "dynamic"; Opt_n] ["/bin/true"] []))).
Proof.
  split; [reflexivity|].
  apply (proj1 (@elf_type_override sys_static [] "dynamic" [Opt_n]
                  ["/bin/true"]
                  (fst (main sys_static [Opt_T "dynamic"; Opt_n] ["/bin/true"] []))
                  (snd (main sys_static [Opt_T "dynamic"; Opt_n] ["/bin/true"] []))
                  eq_refl eq_refl)).
Defined.

(** X10. The target is started with the rest of the command line, its
    first word as the file; it is started through the preload library only
    when [dlopen] of that library has succeeded. *)
Theorem launch_arguments sys opts rest o tr :
  main sys opts rest [] = (o, tr) ->
  (forall filename argv,
     In (Call (minijail_run filename argv)) tr ->
     dlopen_preload_ok sys = true /\
     argv = rest /\ hd_error rest = Some filename) /\
  (forall filename argv,
     In (Call (minijail_run_no_preload filename argv)) tr ->
     argv = rest /\ hd_error rest = Some filename).
Proof.
  intros E. split; intros filename argv Hin;
    pose proof (@event_justified _ _ _ _ _ _ E Hin) as J; simpl in J; tauto.
Qed.

(** X11. With [-i], [main] does not wait for the jailed process: it never
    calls [minijail_wait], and when it returns, it returns 0.  Without
    [-i] it never logs that it exits immediately. *)
Theorem exit_immediately_skips_wait sys opts rest o tr :
  main sys opts rest [] = (o, tr) ->
  (has is_i opts = true ->
   ~ In (Call minijail_wait) tr /\
   forall status, o = Ret status -> status = 0) /\
  (has is_i opts = false -> forall msg, ~ In (Log_info msg) tr).
Proof.
  intros E. split; intros Hi.
  - split.
    + intros Hin. pose proof (@event_justified _ _ _ _ _ _ E Hin) as J. simpl in J.
      congruence.
    + exact (proj2 (@main_events _ _ _ _ _ E) Hi).
  - intros msg Hin. pose proof (@event_justified _ _ _ _ _ _ E Hin) as J. simpl in J.
    congruence.
Qed.

Lemma exit_immediately_skips_wait_witness :
  has is_i [Opt_i] = true /\
  ~ In (Call minijail_wait)
       (snd (main sys_static [Opt_i] ["/bin/true"] [])).
Proof.
  split; [reflexivity|].
  apply (proj1 (@exit_immediately_skips_wait sys_static [Opt_i] ["/bin/true"]
                  (fst (main sys_static [Opt_i] ["/bin/true"] []))
                  (snd (main sys_static [Opt_i] ["/bin/true"] []))
                  eq_refl)).
  reflexivity.
Defined.

(** X12. With [-z] the signal handlers of minijail are never set up:
    [minijail_forward_signals] is never called. *)
Theorem no_forwarding_with_z sys opts rest o tr :
  main sys opts rest [] = (o, tr) ->
  has is_z opts = true ->
  ~ In (Call minijail_forward_signals) tr.
Proof.
  intros E Hz Hin. pose proof (@event_justified _ _ _ _ _ _ E Hin) as J. simpl in J.
  congruence.
Qed.

Lemma no_forwarding_with_z_witness :
  has is_z [Opt_z] = true /\
  ~ In (Call minijail_forward_signals)
       (snd (main sys_static [Opt_z] ["/bin/true"] [])).
Proof.
  split; [reflexivity|].
  apply (@no_forwarding_with_z sys_static [Opt_z] ["/bin/true"]
           (fst (main sys_static [Opt_z] ["/bin/true"] []))
           (snd (main sys_static [Opt_z] ["/bin/true"] []))
           eq_refl eq_refl).
Defined.

(** X16. The seccomp filters are parsed only once the whole command line
    has passed the checks on combinations of options, and the file parsed
    is the one given by the last [-S]. *)
Theorem seccomp_filters_parsed_last sys opts rest o tr path :
  main sys opts rest [] = (o, tr) ->
  In (Call (minijail_parse_seccomp_filters path)) tr ->
  accepted opts /\ has is_S opts = true /\ path = last_filter opts None.
Proof.
  intros E Hin. exact (@event_justified _ _ _ _ _ _ E Hin).
Qed.

Lemma seccomp_filters_parsed_last_witness :
  accepted [Opt_S "/a"; Opt_S "/b"] /\
  has is_S [Opt_S "/a"; Opt_S "/b"] = true /\
  Some "/b" = last_filter [Opt_S "/a"; Opt_S "/b"] None.
Proof.
  apply (@seccomp_filters_parsed_last sys_static [Opt_S "/a"; Opt_S "/b"]
           ["/bin/true"]
           (fst (main sys_static [Opt_S "/a"; Opt_S "/b"] ["/bin/true"] []))
           (snd (main sys_static [Opt_S "/a"; Opt_S "/b"] ["/bin/true"] []))
           (Some "/b") eq_refl).
  simpl. auto 10.
Defined.

(** X19. Logging goes to [stderr] only when the last [--logging] says so:
    otherwise the logger is never re-initialised and no file descriptor
    is preserved for it. *)
Theorem logging_last_wins sys opts rest o tr :
  main sys opts rest [] = (o, tr) ->
  last_logging opts false = false ->
  ~ In Init_logging_stderr tr /\
  forall parent child, ~ In (Call (minijail_preserve_fd parent child)) tr.
Proof.
  intros E Hl. split; [intros Hin | intros parent child Hin];
    pose proof (@event_justified _ _ _ _ _ _ E Hin) as J; simpl in J; congruence.
Qed.

Lemma logging_last_wins_witness :
  last_logging [Opt_logging "stderr"; Opt_logging "syslog"] false = false /\
  ~ In Init_logging_stderr
       (snd (main sys_static [Opt_logging "stderr"; Opt_logging "syslog"]
               ["/bin/true"] [])).
Proof.
  split; [reflexivity|].
  apply (proj1 (@logging_last_wins sys_static
                  [Opt_logging "stderr"; Opt_logging "syslog"] ["/bin/true"]
                  (fst (main sys_static [Opt_logging "stderr"; Opt_logging "syslog"]
                          ["/bin/true"] []))
                  (snd (main sys_static [Opt_logging "stderr"; Opt_logging "syslog"]
                          ["/bin/true"] []))
                  eq_refl eq_refl)).
Defined.

Lemma launch_arguments_witness :
  main sys_static [Opt_T "dynamic"] ["/bin/true"; "-x"] []
  = (Ret 0,
     [Call minijail_forward_signals;
      Call (minijail_run "/bin/true" ["/bin/true"; "-x"]);
      Call minijail_wait]) /\
  (forall filename argv,
     In (Call (minijail_run filename argv))
        (snd (main sys_static [Opt_T "dynamic"] ["/bin/true"; "-x"] [])) ->
     dlopen_preload_ok sys_static = true /\
     argv = ["/bin/true"; "-x"] /\
     hd_error ["/bin/true"; "-x"] = Some filename).
Proof.
  split; [reflexivity|].
  apply (proj1 (@launch_arguments sys_static [Opt_T "dynamic"] ["/bin/true"; "-x"]
                  (fst (main sys_static [Opt_T "dynamic"] ["/bin/true"; "-x"] []))
                  (snd (main sys_static [Opt_T "dynamic"] ["/bin/true"; "-x"] []))
                  eq_refl)).
Defined.

(** ** Failures *)

Lemma parse_args_none_runs sys opts rest tr o tr' :
  parse_args sys opts rest tr = (o, tr') ->
  exists evs, tr' = (tr ++ evs)%list /\ none_runs evs.
Proof.
  intros E.
  refine (proj1 (@parse_args_sat sys opts rest none_runs any_exit none_runs_nil
                   none_runs_app all_quiet_none_runs _ (fun _ _ _ => I)
                   (fun _ => I) (fun _ => I) (fun _ => I) (fun _ => I)
                   _ _ _ E)).
  intros l. apply step_idmaps_sat; auto using none_runs_nil, none_runs_app.
  - intros e He. now repeat constructor.
  - intros; exact I.
Qed.

(** X18. When [parse_args] exits, whatever the reason, [main] exits with
    the same status and message and the target is not started. *)
Theorem no_launch_after_failure sys opts rest status msg tr :
  parse_args sys opts rest [] = (Exit status msg, tr) ->
  main sys opts rest [] = (Exit status msg, tr) /\
  launch_strategy tr = Reject.
Proof.
  intros E. split.
  - unfold main. now apply bind_exit_eq.
  - destruct (parse_args_none_runs _ _ _ _ E) as (evs & -> & H).
    now apply none_runs_rejects.
Qed.

Lemma no_launch_after_failure_witness :
  launch_strategy [Call minijail_skip_remount_private; Call minijail_forward_signals]
  = Reject.
Proof.
  apply (@no_launch_after_failure sys_static [Opt_K] ["/bin/true"] 1 MSG_REMOUNT).
  reflexivity.
Defined.

(** X15. The first option that fails ends the run: the options after it
    are not looked at, whatever they are, and [main] exits as that option
    did. *)
Theorem first_failure_wins sys before after rest status msg tr :
  parse_opts sys before locals0 [] = (Exit status msg, tr) ->
  parse_opts sys (before ++ after) locals0 [] = (Exit status msg, tr) /\
  main sys (before ++ after) rest [] = (Exit status msg, tr).
Proof.
  intros E.
  assert (P : parse_opts sys (before ++ after) locals0 [] = (Exit status msg, tr)).
  { rewrite parse_opts_app. now apply bind_exit_eq. }
  split; [exact P|]. unfold main. apply bind_exit_eq.
  now apply parse_args_from_opts_exit.
Qed.

Lemma first_failure_wins_witness :
  main sys_static ([Opt_n; Opt_h] ++ [Opt_C "/a"; Opt_P "/b"]) ["/bin/true"] []
  = (Exit 0 "", [Call minijail_no_new_privs; Print_usage]).
Proof.
  apply (@first_failure_wins sys_static [Opt_n; Opt_h] [Opt_C "/a"; Opt_P "/b"]
           ["/bin/true"] 0 "").
  reflexivity.
Defined.

(** X9. Without a program after the options [parse_args] never returns; a
    run that passes the checks prints the usage and exits with status 1,
    after the seccomp filters, if any, have been parsed. *)
Theorem program_required sys opts :
  (forall l tr, parse_args sys opts [] [] <> (Ret l, tr)) /\
  (forall l tr,
     run_to_remount sys opts [] = (Ret l, tr) ->
     parse_args sys opts [] []
     = (Exit 1 "",
        (tr ++ (if use_seccomp_filter l
                then [Call (minijail_parse_seccomp_filters (filter_path l))]
                else [])
            ++ [Print_usage])%list)).
Proof.
  split.
  - intros l tr E. destruct (parse_args_ret _ _ _ _ E) as (_ & _ & _ & R).
    now apply R.
  - intros l tr E. unfold parse_args, run_to_elftype.
    apply bind_exit_eq. erewrite bind_ret_eq by exact E.
    unfold step_seccomp_filters, step_program, bind, call, emit, die.
    destruct (use_seccomp_filter l); simpl; [now rewrite <- app_assoc | reflexivity].
Qed.

(** ** [build_idmap] *)

(** X4. [build_idmap] never fails: the two ids and the count always fit in
    the buffer of [IDMAP_LEN] characters.  For ids below 2^31 the map reads
    as the two ids in decimal followed by 1. *)
Theorem build_idmap_never_fails id lowerid tr :
  exists map,
    build_idmap id lowerid tr = (Ret map, tr) /\
    strlen map < IDMAP_LEN /\
    (0 <= id < 2 ^ 31 -> 0 <= lowerid < 2 ^ 31 ->
     map = fmt_d id ++ " " ++ fmt_d lowerid ++ " 1").
Proof.
  exists (fmt_d (Int.to_int id) ++ " " ++ fmt_d (Int.to_int lowerid) ++ " 1").
  split; [apply build_idmap_ret|]. split.
  - unfold strlen, IDMAP_LEN. rewrite !length_append. simpl.
    pose proof (length_fmt_d (Int.to_int id)).
    pose proof (length_fmt_d (Int.to_int lowerid)). lia.
  - intros H1 H2. now rewrite !to_int_small.
Qed.

Lemma program_required_witness :
  parse_args sys_static [Opt_S "/f"] [] []
  = (Exit 1 "",
     [Call minijail_use_seccomp_filter; Call minijail_forward_signals;
      Call (minijail_parse_seccomp_filters (Some "/f")); Print_usage]).
Proof.
  apply (proj2 (program_required sys_static [Opt_S "/f"])
           (with_use_seccomp_filter true
              (with_filter_path (Some "/f") (with_seccomp 2 locals0)))
           [Call minijail_use_seccomp_filter; Call minijail_forward_signals]).
  reflexivity.
Defined.

Lemma build_idmap_never_fails_witness :
  exists map,
    build_idmap 0 1000 [] = (Ret map, []) /\
    strlen map < IDMAP_LEN /\
    (0 <= 0 < 2 ^ 31 -> 0 <= 1000 < 2 ^ 31 ->
     map = fmt_d 0 ++ " " ++ fmt_d 1000 ++ " 1").
Proof. exact (build_idmap_never_fails 0 1000 []). Defined.

(** ** The maps given on the command line *)

Lemma run_to_logging_gathered sys opts tr l tr' :
  run_to_logging sys opts tr = (Ret l, tr') -> gathered opts l.
Proof.
  intros E. exact (proj2 (@J_logging sys opts [] _ _ _ E)).
Qed.

(** X6. A uid map given with [-m] is handed to the jail as it is, right
    after the user and pid namespaces are asked for, and the last [-m]
    wins: no other uid map is ever set in the run. *)
Theorem explicit_uidmap_verbatim sys opts rest map :
  last_uidmap opts None = Some (Some map) ->
  (forall l tr,
     run_to_logging sys opts [] = (Ret l, tr) ->
     exists o evs,
       run_to_idmaps sys opts [] =
       (o, (tr ++ [Call minijail_namespace_user; Call minijail_namespace_pids;
                   Call (minijail_uidmap map)] ++ evs)%list)) /\
  (forall o tr map',
     main sys opts rest [] = (o, tr) ->
     In (Call (minijail_uidmap map')) tr -> map' = map).
Proof.
  intros Hm. split.
  - intros l tr E.
    pose proof (run_to_logging_ret _ _ _ E) as Hl.
    destruct (collected_flags Hl) as (_ & _ & _ & _ & _ & _ & _ & m & _).
    rewrite Hm in m. unfold uidmap_request in m.
    destruct (set_uidmap l) eqn:Hs; [|discriminate].
    assert (Hn : uidmap l = Some map) by congruence. clear m.
    unfold run_to_idmaps. erewrite bind_ret_eq by exact E.
    unfold step_idmaps. rewrite Hs. cbn [orb].
    unfold set_ugid_mapping. rewrite Hn.
    set (gid_part := if set_gidmap l then _ else ret tt).
    assert (G : sat any_events any_exit gid_part (fun _ => True)).
    { unfold gid_part, build_idmap, has_cap_setgid.
      repeat (sat_step any_nil any_app); try exact I; intros; exact I. }
    unfold bind at 1 2 3 4 5 6. unfold call, emit, ret, call_int.
    rewrite <- !app_assoc. cbn [app].
    destruct (negb (0 =? _ )).
    + exists (Exit 1 ("Could not set uid map." ++ nl)), []. reflexivity.
    + destruct (gid_part _) as [o tr'] eqn:Eg.
      destruct (@sat_extends _ _ _ _ _ G Eg) as [evs ->].
      destruct o; rewrite <- app_assoc; eexists; exists evs; reflexivity.
  - intros o tr map' E Hin.
    destruct (@event_justified _ _ _ _ _ _ E Hin) as (r & Hr & Hmap).
    rewrite Hm in Hr. injection Hr as <-. now apply Hmap.
Qed.

Lemma explicit_uidmap_verbatim_witness :
  exists o evs,
    run_to_idmaps sys_static [Opt_m (Some "0 5 1"); Opt_m (Some "0 1000 10")] [] =
    (o, ([] ++ [Call minijail_namespace_user; Call minijail_namespace_pids;
                Call (minijail_uidmap "0 1000 10")] ++ evs)%list).
Proof.
  apply (proj1 (@explicit_uidmap_verbatim sys_static
                  [Opt_m (Some "0 5 1"); Opt_m (Some "0 1000 10")] []
                  "0 1000 10" eq_refl)
           (with_uidmap (Some "0 1000 10") (with_set_uidmap true locals0))).
  reflexivity.
Defined.

Lemma run_to_logging_quiet sys opts l tr :
  run_to_logging sys opts [] = (Ret l, tr) -> all_quiet tr.
Proof.
  intros E.
  destruct (proj1 (@run_to_logging_sat sys opts all_quiet any_exit all_quiet_nil
                     all_quiet_app (fun _ H => H) (fun _ _ _ => I) _ _ _ E))
    as (evs & -> & H).
  exact H.
Qed.

Lemma quiet_no_gidmap tr map :
  all_quiet tr -> ~ In (Call (minijail_gidmap map)) tr.
Proof.
  intros H Hin. unfold all_quiet in H. rewrite Forall_forall in H.
  specialize (H _ Hin). discriminate.
Qed.

(** X5. When the last [-M] among the options carries no map, the only gid
    map set on the jail is made of the gid chosen by [-g] or [-u], the real
    gid of the caller and the count 1, in decimal, for ids below 2^31; and
    it is set whenever the set-up of the id maps completes. *)
Theorem default_gidmap sys opts l tr :
  run_to_logging sys opts [] = (Ret l, tr) ->
  last_gidmap opts None = Some None ->
  0 <= gid l < 2 ^ 31 ->
  0 <= getgid sys < 2 ^ 31 ->
  exists o tr',
    run_to_idmaps sys opts [] = (o, tr') /\
    (forall map,
       In (Call (minijail_gidmap map)) tr' ->
       map = fmt_d (gid l) ++ " " ++ fmt_d (getgid sys) ++ " 1") /\
    (forall l', o = Ret l' ->
       In (Call (minijail_gidmap
                   (fmt_d (gid l) ++ " " ++ fmt_d (getgid sys) ++ " 1"))) tr').
Proof.
  intros E Hm Hg1 Hg2.
  pose proof (run_to_logging_quiet _ _ E) as Tq.
  pose proof (run_to_logging_gathered _ _ _ E) as Hl.
  destruct (gathered_facts Hl) as (_ & _ & _ & _ & _ & _ & _ & _ & g & _).
  rewrite Hm in g. unfold gidmap_request in g.
  destruct (set_gidmap l) eqn:Hs; [|discriminate].
  assert (Hn : gidmap l = None) by congruence. clear g.
  unfold run_to_idmaps. erewrite bind_ret_eq by exact E.
  unfold step_idmaps. rewrite Hs, orb_true_r.
  unfold set_ugid_mapping. rewrite Hn.
  unfold has_cap_setgid, bind, call, emit, call_int, ret, die.
  destruct (set_uidmap l); [destruct (uidmap l)|];
    repeat first
      [ rewrite build_idmap_ret
      | progress cbv beta iota
      | progress cbn [negb]
      | match goal with
        | |- context [match cap_get_flag_setgid sys with _ => _ end] =>
            destruct (cap_get_flag_setgid sys) as [[|]|]
        | |- context [if ?b then _ else _] => destruct b
        end ];
    rewrite ?(to_int_small Hg1), ?(to_int_small Hg2);
    rewrite <- ?app_assoc; cbn [app];
    (eexists; eexists; split; [reflexivity|]; split;
     [ intros map Hin; apply in_app_or in Hin; destruct Hin as [Hin | Hin];
       [ exfalso; exact (@quiet_no_gidmap _ _ Tq Hin)
       | simpl in Hin;
         repeat match goal with
                | H : _ \/ _ |- _ => destruct H as [H | H]
                end;
         try contradiction; try discriminate;
         try (injection Hin as <-; reflexivity) ]
     | intros l' Ho; try discriminate;
       apply in_or_app; right; simpl; auto 10 ]).
Qed.

Lemma default_gidmap_witness :
  exists o tr',
    run_to_idmaps sys_static [Opt_g "5"; Opt_M None] [] = (o, tr') /\
    (forall map,
       In (Call (minijail_gidmap map)) tr' ->
       map = fmt_d 5 ++ " " ++ fmt_d 1000 ++ " 1") /\
    (forall l', o = Ret l' ->
       In (Call (minijail_gidmap (fmt_d 5 ++ " " ++ fmt_d 1000 ++ " 1"))) tr').
Proof.
  apply (@default_gidmap sys_static [Opt_g "5"; Opt_M None]
           (with_gidmap None (with_set_gidmap true (with_gid 5 locals0)))
           [Call (minijail_change_gid 5)]);
    [vm_compute; reflexivity | reflexivity | vm_compute; intuition discriminate
    | vm_compute; intuition discriminate].
Defined.

(** ** Arguments of options *)

(** X13. A bind mount needs two fields, a mount and an rlimit three, empty
    fields not counted: with fewer the option is refused with status 1
    before anything is asked of the jail; with enough fields exactly one
    call is made on the jail. *)
Theorem missing_fields_rejected sys arg tr :
  let n := List.length (strtok_all "," arg) in
  ((n < 2)%nat -> exists msg, add_binding sys arg tr = (Exit 1 msg, tr)) /\
  ((n < 3)%nat -> exists msg, add_mount sys arg tr = (Exit 1 msg, tr)) /\
  ((n < 3)%nat -> exists msg, add_rlimit sys arg tr = (Exit 1 msg, tr)) /\
  ((2 <= n)%nat ->
   exists o src dest writeable,
     add_binding sys arg tr
     = (o, (tr ++ [Call (minijail_bind src dest writeable)])%list)) /\
  ((3 <= n)%nat ->
   (exists o src dest type flags data,
      add_mount sys arg tr
      = (o, (tr ++ [Call (minijail_mount_with_data src dest type flags data)])%list)) /\
   (exists o type cur max,
      add_rlimit sys arg tr
      = (o, (tr ++ [Call (minijail_rlimit type cur max)])%list))).
Proof.
  intros n. subst n. unfold add_binding, add_mount, add_rlimit.
  destruct (strtok_all "," arg) as [|a [|b [|c toks]]]; simpl;
    (split; [|split; [|split; [|split]]]); intros H; try lia;
    try (eexists; reflexivity); try split;
    unfold bind, call_int, die, ret;
    repeat match goal with
           | |- context [if ?b then _ else _] => destruct b
           end;
    repeat eexists.
Qed.

Lemma missing_fields_rejected_witness :
  (exists msg, add_binding sys_static ",/src,," [] = (Exit 1 msg, [])) /\
  (exists o src dest writeable,
     add_binding sys_static "/src,,/dest" []
     = (o, ([] ++ [Call (minijail_bind src dest writeable)])%list)).
Proof.
  split.
  - apply (proj1 (missing_fields_rejected sys_static ",/src,," [])).
    simpl. lia.
  - apply (proj1 (proj2 (proj2 (proj2
             (missing_fields_rejected sys_static "/src,,/dest" []))))).
    simpl. lia.
Defined.

(** X14. When [-u] succeeds, either its argument was read in full as a
    number, and then only the uid changes, by one call of
    [minijail_change_uid]; or the argument was looked up as a user name,
    and then the uid and the gid are both those of the user and the jail
    was told the name.  When it fails, nothing was changed on the jail
    unless [minijail_change_user] itself refused the name. *)
Theorem set_user_outcomes sys arg l tr :
  (forall l' tr',
     set_user sys arg l tr = (Ret l', tr') ->
     (snd (strtod arg) = "" /\ arg <> "" /\
      l' = with_uid (uid l') l /\
      tr' = (tr ++ [Call (minijail_change_uid (uid l'))])%list)
     \/
     (lookup_user sys arg = Some (uid l', gid l') /\
      l' = with_gid (gid l') (with_uid (uid l') l) /\
      tr' = (tr ++ [Lookup_user arg; Call (minijail_change_user arg)])%list)) /\
  (forall status msg tr',
     set_user sys arg l tr = (Exit status msg, tr') ->
     status = 1 /\ msg = "Bad user: '" ++ arg ++ "'" ++ nl /\
     (tr' = (tr ++ [Lookup_user arg])%list /\ lookup_user sys arg = None
      \/ tr' = (tr ++ [Lookup_user arg; Call (minijail_change_user arg)])%list)).
Proof.
  unfold set_user. destruct (strtod arg) as [d e].
  destruct (double_to_int d) as [v|]; [|split; intros; discriminate].
  simpl. destruct (negb (nonempty e) && nonempty arg) eqn:N.
  - split; [|intros; discriminate].
    intros l' tr' E. unfold bind, call, emit, ret in E. inversion E; subst.
    left. apply andb_prop in N. destruct N as [N1 N2].
    destruct e; [|discriminate]. destruct arg; [discriminate|].
    repeat split; auto; discriminate.
  - unfold bind, emit, call_int, die, ret.
    destruct (lookup_user sys arg) as [[u g]|].
    + destruct (negb (_ =? 0)); split; intros; try discriminate.
      * match goal with H : _ = _ |- _ => inversion H; subst end.
        repeat split; auto. right. now rewrite <- app_assoc.
      * match goal with H : _ = _ |- _ => inversion H; subst end.
        right. destruct l; simpl. repeat split; auto. now rewrite <- app_assoc.
    + split; intros; try discriminate.
      match goal with H : _ = _ |- _ => inversion H; subst end.
      repeat split; auto.
Qed.





Lemma set_user_outcomes_witness :
  snd (strtod "1000") = "" /\ "1000" <> "" /\
  with_uid 1000 locals0 = with_uid (uid (with_uid 1000 locals0)) locals0 /\
  [Call (minijail_change_uid 1000)]
  = ([] ++ [Call (minijail_change_uid (uid (with_uid 1000 locals0)))])%list
  \/
  lookup_user sys_static "1000"
  = Some (uid (with_uid 1000 locals0), gid (with_uid 1000 locals0)) /\
  with_uid 1000 locals0
  = with_gid (gid (with_uid 1000 locals0))
      (with_uid (uid (with_uid 1000 locals0)) locals0) /\
  [Call (minijail_change_uid 1000)]
  = ([] ++ [Lookup_user "1000"; Call (minijail_change_user "1000")])%list.
Proof.
  apply (proj1 (set_user_outcomes sys_static "1000" locals0 [])
           (with_uid 1000 locals0) [Call (minijail_change_uid 1000)]).
  vm_compute. reflexivity.
Defined.

(** X20. When [-g] succeeds, either its argument was read in full as a
    number, with one call of [minijail_change_gid]; or it was looked up as
    a group name, the gid is that of the group and the jail was told the
    name.  When it fails, it is with status 1 and the message that names
    the group, after the lookup. *)
Theorem set_group_outcomes sys arg l tr :
  (forall l' tr',
     set_group sys arg l tr = (Ret l', tr') ->
     l' = with_gid (gid l') l /\
     ((snd (strtod arg) = "" /\ arg <> "" /\
       tr' = (tr ++ [Call (minijail_change_gid (gid l'))])%list)
      \/
      (lookup_group sys arg = Some (gid l') /\
       tr' = (tr ++ [Lookup_group arg; Call (minijail_change_group arg)])%list))) /\
  (forall status msg tr',
     set_group sys arg l tr = (Exit status msg, tr') ->
     status = 1 /\ msg = "Bad group: '" ++ arg ++ "'" ++ nl /\
     (tr' = (tr ++ [Lookup_group arg])%list /\ lookup_group sys arg = None
      \/ tr' = (tr ++ [Lookup_group arg; Call (minijail_change_group arg)])%list)).
Proof.
  unfold set_group. destruct (strtod arg) as [d e].
  destruct (double_to_int d) as [v|]; [|split; intros; discriminate].
  simpl. destruct (negb (nonempty e) && nonempty arg) eqn:N.
  - split; [|intros; discriminate].
    intros l' tr' E. unfold bind, call, emit, ret in E. inversion E; subst.
    apply andb_prop in N. destruct N as [N1 N2].
    destruct e; [|discriminate]. destruct arg; [discriminate|].
    split; [reflexivity|]. left. repeat split; auto; discriminate.
  - unfold bind, emit, call_int, die, ret.
    destruct (lookup_group sys arg) as [g|].
    + destruct (negb (_ =? 0)); split; intros; try discriminate.
      * match goal with H : _ = _ |- _ => inversion H; subst end.
        repeat split; auto. right. now rewrite <- app_assoc.
      * match goal with H : _ = _ |- _ => inversion H; subst end.
        split; [reflexivity|]. right. simpl. split; auto.
        now rewrite <- app_assoc.
    + split; intros; try discriminate.
      match goal with H : _ = _ |- _ => inversion H; subst end.
      repeat split; auto.
Qed.

Lemma run_to_remount_gathered sys opts tr l tr' :
  run_to_remount sys opts tr = (Ret l, tr') -> gathered opts l.
Proof.
  intros E. exact (proj1 (proj2 (@J_remount sys opts [] _ _ _ E))).
Qed.

(** X21. Without [-T] the target must be an executable ELF file: when the
    checks have passed and [access] refuses the file, or when it is not an
    ELF file, [main] exits with status 1 and the message that says so, and
    nothing is started. *)
Theorem unusable_target_rejected sys opts program args l tr :
  run_to_remount sys opts [] = (Ret l, tr) ->
  has is_T opts = false ->
  let parsed :=
    (tr ++ (if use_seccomp_filter l
            then [Call (minijail_parse_seccomp_filters (filter_path l))]
            else []))%list in
  let path := original_path sys parsed program in
  let probed := (parsed ++ [Call (minijail_get_original_path program)])%list in
  (access_x_ok sys path = false ->
   main sys opts (program :: args) []
   = (Exit 1 ("Target program '" ++ program ++ "' is not accessible." ++ nl),
      probed)) /\
  (access_x_ok sys path = true ->
   get_elf_linkage sys path = ELFERROR ->
   setpgid_errno sys = None \/ setpgid_errno sys = Some EPERM ->
   main sys opts (program :: args) []
   = (Exit 1 ("Target program '" ++ program ++ "' is not a valid ELF file." ++ nl),
      probed)).
Proof.
  intros E HT parsed path probed.
  pose proof (run_to_remount_gathered _ _ _ E) as Hl.
  destruct (gathered_facts Hl) as (_ & _ & _ & _ & _ & _ & _ & _ & _ & t & _).
  rewrite last_elftype_none in t by exact HT.
  assert (S : (step_seccomp_filters l) tr = (Ret tt, parsed)).
  { unfold step_seccomp_filters, parsed, call, emit, ret.
    destruct (use_seccomp_filter l); [reflexivity | now rewrite app_nil_r]. }
  split.
  - intros A. unfold main. apply bind_exit_eq.
    unfold parse_args. apply bind_exit_eq.
    unfold run_to_elftype. erewrite bind_ret_eq by exact E.
    erewrite bind_ret_eq by exact S.
    unfold step_program, bind, ret, step_elftype. rewrite t. simpl.
    unfold bind, emit. fold path. rewrite A. reflexivity.
  - intros A L P.
    assert (R : parse_args sys opts (program :: args) []
                = (Ret (with_elftype ELFERROR l), probed)).
    { assert (RE : run_to_elftype sys opts (program :: args) []
                   = (Ret (with_elftype ELFERROR l), probed)).
      { unfold run_to_elftype. erewrite bind_ret_eq by exact E.
        erewrite bind_ret_eq by exact S.
        unfold step_program, bind, ret, step_elftype. rewrite t. simpl.
        unfold bind, emit. fold path. rewrite A, L. reflexivity. }
      unfold parse_args. erewrite bind_ret_eq by exact RE.
      unfold step_static_caps, bind, ret. destruct l; simpl.
      rewrite andb_false_r. reflexivity. }
    unfold main. erewrite bind_ret_eq by exact R.
    unfold bind, ret, die. destruct l; simpl.
    destruct P as [-> | ->]; reflexivity.
Qed.

Lemma unusable_target_rejected_witness :
  main (Build_system 1000 1000 (fun _ => None) (fun _ => None) (fun _ _ => 0)
          (fun _ p => p) (fun _ => None) true true (Some false) true
          (fun _ => false) (fun _ => ELFSTATIC) true "" None 64)
    [Opt_n] ["/bin/none"] []
  = (Exit 1 ("Target program '/bin/none' is not accessible." ++ nl),
     [Call minijail_no_new_privs; Call minijail_forward_signals;
      Call (minijail_get_original_path "/bin/none")]).
Proof.
  apply (proj1 (@unusable_target_rejected
                  (Build_system 1000 1000 (fun _ => None) (fun _ => None)
                     (fun _ _ => 0) (fun _ p => p) (fun _ => None) true true
                     (Some false) true (fun _ => false) (fun _ => ELFSTATIC)
                     true "" None 64)
                  [Opt_n] "/bin/none" [] locals0
                  [Call minijail_no_new_privs; Call minijail_forward_signals]
                  eq_refl eq_refl)).
  reflexivity.
Defined.

Lemma set_group_outcomes_witness :
  with_gid 7 locals0 = with_gid (gid (with_gid 7 locals0)) locals0 /\
  (snd (strtod "7") = "" /\ "7" <> "" /\
   [Call (minijail_change_gid 7)]
   = ([] ++ [Call (minijail_change_gid (gid (with_gid 7 locals0)))])%list
   \/
   lookup_group sys_static "7" = Some (gid (with_gid 7 locals0)) /\
   [Call (minijail_change_gid 7)]
   = ([] ++ [Lookup_group "7"; Call (minijail_change_group "7")])%list).
Proof.
  apply (proj1 (set_group_outcomes sys_static "7" locals0 [])
           (with_gid 7 locals0) [Call (minijail_change_gid 7)]).
  vm_compute. reflexivity.
Defined.
